(** * A shallow embedding of [server.go]: the fish catalogue service

    The file follows the Go source top to bottom.  First come the pieces of
    the Go runtime and standard library the handlers lean on
    ([strings.Split], [fmt.Sprintf], [encoding/json], [http.ResponseWriter],
    map iteration), then the [Fish] record, the [fishesHandler] store and its
    four handlers, then an interleaving model of the lock discipline, and
    finally the properties of the specification.

    Strings are byte strings ([string] of [ascii]); Go's [int] and [int64]
    are [Z]; the map [h.db] is a [gmap string Fish]. *)

From Stdlib Require Import ZArith Lia Ascii.
From stdpp Require Import gmap strings list fin_maps pretty.

Local Open Scope string_scope.
Local Open Scope Z_scope.
Local Open Scope list_scope.

(** ** Library pieces *)

(** [strings.Split(s, sep)] for a one-byte separator: the substrings between
    the occurrences of [sep]; a string without [sep] gives the one-element
    slice [[s]] (also for the empty string). *)
Fixpoint strings_Split (s : string) (sep : ascii) : list string :=
  match s with
  | EmptyString => [EmptyString]
  | String c s' =>
      if decide (c = sep) then EmptyString :: strings_Split s' sep
      else match strings_Split s' sep with
           | [] => [String c EmptyString]
           | p :: ps => String c p :: ps
           end
  end.

(** [fmt.Sprintf("%d", n)]: the decimal rendering of an integer. *)
Definition Sprintf_d (n : Z) : string := pretty n.

(** Bytes of a string: whether [c] occurs in [s], and whether every byte of
    [s] passes the test [P]. *)
Fixpoint occurs (c : ascii) (s : string) : bool :=
  match s with
  | EmptyString => false
  | String c' s' => bool_decide (c' = c) || occurs c s'
  end.

Fixpoint all_chars (P : ascii → bool) (s : string) : bool :=
  match s with
  | EmptyString => true
  | String c s' => P c && all_chars P s'
  end.

(** The bytes [%d] can print: the ten digits and the minus sign. *)
Definition decimal_char (c : ascii) : bool :=
  let n := nat_of_ascii c in
  bool_decide (48 ≤ n ≤ 57)%nat || bool_decide (n = 45)%nat.

(** ASCII lower-casing, for the case-insensitive match of JSON object keys
    against struct field names. *)
Definition lower_ascii (c : ascii) : ascii :=
  let n := nat_of_ascii c in
  if decide (65 ≤ n ≤ 90)%nat then ascii_of_nat (n + 32) else c.

Fixpoint lower (s : string) : string :=
  match s with
  | EmptyString => EmptyString
  | String c s' => String (lower_ascii c) (lower s')
  end.

(** JSON values.  A number literal without fraction and exponent is [JInt];
    any other number literal is kept as its text in [JFrac]. *)
#[warnings="-register-all"] Inductive json : Type :=
  | JNull
  | JBool (b : bool)
  | JInt (z : Z)
  | JFrac (lit : string)
  | JStr (s : string)
  | JArr (elems : list json)
  | JObj (members : list (string * json)).

(** Go [error] values the handlers can meet. *)
Inductive error : Type :=
  | ReadError (msg : string)
  | SyntaxError (msg : string)
  | UnmarshalTypeError (value : string) (field : string).

(** A byte slice as [encoding/json] sees it: [json.Unmarshal] first checks
    the whole input with its scanner, and either rejects it with a syntax
    error or goes on to decode the JSON value the bytes spell. *)
Inductive data : Type :=
  | Malformed (msg : string)
  | Document (j : json).

(** A Go slice is [nil] or a sequence of elements: [var s []T] declares a
    nil slice and [append] always yields a non-nil one. *)
Definition slice (A : Type) : Type := option (list A).

Definition append {A} (s : slice A) (x : A) : slice A :=
  Some (default [] s ++ [x]).

Definition elements_of {A} (s : slice A) : list A := default [] s.

(** Go ranges over a map in an order of the runtime's choosing.  The order
    is drawn from a list of picks: each pick selects one of the entries that
    are left. *)
Fixpoint shuffle {A} (picks : list nat) (l : list A) : list A :=
  match picks with
  | [] => l
  | k :: picks' =>
      match l !! (k mod length l)%nat with
      | Some x => x :: shuffle picks' (delete (k mod length l)%nat l)
      | None => l
      end
  end.

(** What the world supplies to one run of a handler: the reading of
    [time.Now().UnixNano()], the draw behind [rand.Intn], and the picks that
    fix the iteration order of [range h.db]. *)
Record Env : Type := mkEnv {
  now : Z;
  rnd : nat;
  order : list nat
}.

(** ** HTTP plumbing *)

Definition StatusOK : Z := 200.
Definition StatusFound : Z := 302.
Definition StatusBadRequest : Z := 400.
Definition StatusNotFound : Z := 404.
Definition StatusMethodNotAllowed : Z := 405.
Definition StatusUnsupportedMediaType : Z := 415.
Definition StatusInternalServerError : Z := 500.

(** [url.URL], for a request whose target is in origin form (a path and an
    optional query), which is what a client of this server sends: [Path] is
    the decoded path and [EscapedPath] the result of [u.EscapedPath()]. *)
Record url_URL : Type := mkURL {
  Path : string;
  EscapedPath : string;
  ForceQuery : bool;
  RawQuery : string
}.

(** [u.String()] for such a URL: the escaped path, then [?] and the query
    when there is one. *)
Definition URL_String (u : url_URL) : string :=
  EscapedPath u +:+
  (if ForceQuery u || negb (bool_decide (RawQuery u = ""))
   then "?" +:+ RawQuery u else "").

(** [ioutil.ReadAll(r.Body)]: an error, or the bytes. *)
Inductive body : Type :=
  | BodyErr (msg : string)
  | BodyData (d : data).

(** Headers are keyed by their canonical name, as [Header.Get] and
    [Header.Add] canonicalise the key they are given. *)
Record Request : Type := mkRequest {
  Method : string;
  URL : url_URL;
  Header : gmap string (list string);
  Body : body
}.

Definition Header_Get (h : gmap string (list string)) (key : string) : string :=
  match h !! key with
  | Some (v :: _) => v
  | _ => ""
  end.

(** One [w.Write] call: a literal text, the text of an error, or the bytes
    [json.Marshal] produced. *)
Inductive chunk : Type :=
  | Text (s : string)
  | ErrText (e : error)
  | Json (j : json).

(** [http.ResponseWriter]: the header map the handler edits, the status
    line once it is out (with the headers as they were then), and the body
    written so far.  Headers the server adds on its own account (date,
    length, a sniffed content type) are left out. *)
Record ResponseWriter : Type := mkResponseWriter {
  header : gmap string (list string);
  wrote : option (Z * gmap string (list string));
  written : list chunk
}.

Definition newResponseWriter : ResponseWriter :=
  mkResponseWriter ∅ None [].

Definition Header_Add (w : ResponseWriter) (key value : string) : ResponseWriter :=
  mkResponseWriter
    (<[key := default [] (header w !! key) ++ [value]]> (header w))
    (wrote w) (written w).

(** Only the first [WriteHeader] counts. *)
Definition WriteHeader (w : ResponseWriter) (code : Z) : ResponseWriter :=
  match wrote w with
  | Some _ => w
  | None => mkResponseWriter (header w) (Some (code, header w)) (written w)
  end.

(** [Write] sends an implicit [WriteHeader(200)] when none was sent. *)
Definition Write (w : ResponseWriter) (c : chunk) : ResponseWriter :=
  let w' := WriteHeader w StatusOK in
  mkResponseWriter (header w') (wrote w') (written w' ++ [c]).

(** The response the client gets when the handler returns: a handler that
    never wrote answers 200 with an empty body. *)
Definition status (w : ResponseWriter) : Z :=
  match wrote w with Some (c, _) => c | None => StatusOK end.

Definition sent_header (w : ResponseWriter) (key : string) : list string :=
  match wrote w with
  | Some (_, hs) => default [] (hs !! key)
  | None => default [] (header w !! key)
  end.

Definition response_body (w : ResponseWriter) : list chunk := written w.

(** ** The record and its JSON encoding *)

(** [type Fish struct], with the JSON names [id], [name], [environment] and
    [max_length], each tagged [omitempty]. *)
Record Fish : Type := mkFish {
  ID : string;
  Name : string;
  Environment : string;
  MaxLength : Z
}.

(** [var fish Fish]: the zero value. *)
Definition zeroFish : Fish := mkFish "" "" "" 0.

Definition set_ID (f : Fish) (v : string) : Fish :=
  mkFish v (Name f) (Environment f) (MaxLength f).
Definition set_Name (f : Fish) (v : string) : Fish :=
  mkFish (ID f) v (Environment f) (MaxLength f).
Definition set_Environment (f : Fish) (v : string) : Fish :=
  mkFish (ID f) (Name f) v (MaxLength f).
Definition set_MaxLength (f : Fish) (v : Z) : Fish :=
  mkFish (ID f) (Name f) (Environment f) v.

(** [json.Marshal] of one [Fish]: an object with the non-empty fields, in
    the order of the struct.  It has no way to fail on this type. *)
Definition marshal_Fish (f : Fish) : json :=
  JObj ((if decide (ID f = "") then [] else [("id", JStr (ID f))]) ++
        (if decide (Name f = "") then [] else [("name", JStr (Name f))]) ++
        (if decide (Environment f = "") then []
         else [("environment", JStr (Environment f))]) ++
        (if decide (MaxLength f = 0) then []
         else [("max_length", JInt (MaxLength f))])).

Definition json_Marshal_Fish (f : Fish) : json * option error :=
  (marshal_Fish f, None).

(** [json.Marshal] of a [[]Fish]: a nil slice is encoded as [null], any
    other slice as the array of its elements. *)
Definition json_Marshal_Fishes (fishes : slice Fish) : json * option error :=
  match fishes with
  | None => (JNull, None)
  | Some l => (JArr (map marshal_Fish l), None)
  end.

(** The word [json.Unmarshal] puts in the [Value] of a type error. *)
Definition json_kind (j : json) : string :=
  match j with
  | JNull => "null"
  | JBool _ => "bool"
  | JInt z => "number " +:+ pretty z
  | JFrac lit => "number " +:+ lit
  | JStr _ => "string"
  | JArr _ => "array"
  | JObj _ => "object"
  end.

Definition json_kind_short (j : json) : string :=
  match j with
  | JInt _ | JFrac _ => "number"
  | _ => json_kind j
  end.

(** Storing a JSON value in a [string] field: [null] leaves the field as it
    is, a string sets it, anything else is a type error. *)
Definition store_string (field : string) (j : json) (cur : string)
    : string * option error :=
  match j with
  | JNull => (cur, None)
  | JStr s => (s, None)
  | _ => (cur, Some (UnmarshalTypeError (json_kind_short j) field))
  end.

(** Storing a JSON value in an [int] field: the number must be an integer
    literal that fits 64 bits. *)
Definition store_int (field : string) (j : json) (cur : Z)
    : Z * option error :=
  match j with
  | JNull => (cur, None)
  | JInt z =>
      if decide (- 2 ^ 63 ≤ z < 2 ^ 63) then (z, None)
      else (cur, Some (UnmarshalTypeError (json_kind j) field))
  | JFrac _ => (cur, Some (UnmarshalTypeError (json_kind j) field))
  | _ => (cur, Some (UnmarshalTypeError (json_kind_short j) field))
  end.

(** One member of a JSON object: the key selects a field without regard to
    letter case, unknown keys are skipped. *)
Definition decode_member (f : Fish) (key : string) (j : json)
    : Fish * option error :=
  let k := lower key in
  if decide (k = "id") then
    let '(v, e) := store_string "id" j (ID f) in (set_ID f v, e)
  else if decide (k = "name") then
    let '(v, e) := store_string "name" j (Name f) in (set_Name f v, e)
  else if decide (k = "environment") then
    let '(v, e) := store_string "environment" j (Environment f) in
    (set_Environment f v, e)
  else if decide (k = "max_length") then
    let '(v, e) := store_int "max_length" j (MaxLength f) in
    (set_MaxLength f v, e)
  else (f, None).

(** The decoder goes through all members and reports the first error it
    saved. *)
Fixpoint decode_members (f : Fish) (ms : list (string * json))
    : Fish * option error :=
  match ms with
  | [] => (f, None)
  | (key, j) :: ms' =>
      let '(f1, e1) := decode_member f key j in
      let '(f2, e2) := decode_members f1 ms' in
      (f2, match e1 with Some _ => e1 | None => e2 end)
  end.

(** [json.Unmarshal(bodyBytes, &fish)]: the fish as the decoder leaves it,
    and the error if any. *)
Definition json_Unmarshal (d : data) (fish : Fish) : Fish * option error :=
  match d with
  | Malformed msg => (fish, Some (SyntaxError msg))
  | Document (JObj ms) => decode_members fish ms
  | Document JNull => (fish, None)
  | Document j => (fish, Some (UnmarshalTypeError (json_kind_short j) ""))
  end.

(** ** The store and its handlers *)

(** [type fishesHandler struct].  A handler that runs alone finds the
    embedded mutex free and leaves it free, so the record keeps the map
    only; the mutex is the subject of [Module Interleaving] below. *)
Record fishesHandler : Type := mkFishesHandler {
  db : gmap string Fish
}.

Definition newFishesHander : fishesHandler := mkFishesHandler ∅.

(** [range h.db]: the entries in the order the environment picks. *)
Definition range_db (env : Env) (m : gmap string Fish) : list (string * Fish) :=
  shuffle (order env) (map_to_list m).

(** The critical section of [getAllFishes]: starting from the nil slice,
    every fish the range meets is appended. *)
Definition snapshot (env : Env) (h : fishesHandler) : slice Fish :=
  foldl (λ fishes kv, append fishes kv.2) None (range_db env (db h)).

(** [getAllFishes].  The error branch does not return, so the code after it
    runs in any case. *)
Definition getAllFishes (env : Env) (h : fishesHandler) (w : ResponseWriter)
    (r : Request) : fishesHandler * ResponseWriter :=
  let fishes := snapshot env h in
  let '(jsonBytes, err) := json_Marshal_Fishes fishes in
  let w := match err with
           | Some e => Write (WriteHeader w StatusInternalServerError) (ErrText e)
           | None => w
           end in
  let w := Header_Add w "Content-Type" "application/json" in
  let w := WriteHeader w StatusOK in
  (h, Write w (Json jsonBytes)).

(** [make([]string, n)]. *)
Definition make_strings (n : nat) : list string := replicate n "".

(** The loop of [getRandomCoaster]: [ids[i] = id; i++] for every key.  An
    index past the end of [ids] is a run-time panic, here [None]. *)
Fixpoint fill_ids (keys : list string) (i : nat) (ids : list string)
    : option (list string) :=
  match keys with
  | [] => Some ids
  | id :: keys' =>
      if decide (i < length ids)%nat then fill_ids keys' (S i) (<[i := id]> ids)
      else None
  end.

(** What [getRandomCoaster] does once [ids] is filled.  [rand.Intn(n)]
    yields an index below [n], so both reads of [ids] are in range. *)
Definition answer_random (env : Env) (w : ResponseWriter) (ids : list string)
    : ResponseWriter :=
  if decide (length ids = 0)%nat then WriteHeader w StatusNotFound
  else
    let target :=
      if decide (length ids = 1)%nat then default "" (ids !! 0%nat)
      else default "" (ids !! (rnd env mod length ids)%nat) in
    WriteHeader (Header_Add w "Location" ("/fishes/" +:+ target)) StatusFound.

(** [getRandomCoaster]; [None] stands for a panic of the goroutine. *)
Definition getRandomCoaster (env : Env) (h : fishesHandler) (w : ResponseWriter)
    (r : Request) : option (fishesHandler * ResponseWriter) :=
  let ids := make_strings (size (db h)) in
  ids ← fill_ids (range_db env (db h)).*1 0 ids;
  Some (h, answer_random env w ids).

(** [getFish]. *)
Definition getFish (env : Env) (h : fishesHandler) (w : ResponseWriter)
    (r : Request) : option (fishesHandler * ResponseWriter) :=
  let parts := strings_Split (URL_String (URL r)) "/" in
  match parts with
  | [_; _; segment] =>
      if decide (segment = "random") then getRandomCoaster env h w r
      else
        match db h !! segment with
        | None => Some (h, WriteHeader w StatusNotFound)
        | Some foundFish =>
            let '(jsonBytes, err) := json_Marshal_Fish foundFish in
            match err with
            | Some _ => Some (h, WriteHeader w StatusInternalServerError)
            | None =>
                let w := Header_Add w "Content-Type" "application/json" in
                let w := WriteHeader w StatusOK in
                Some (h, Write w (Json jsonBytes))
            end
        end
  | _ => Some (h, WriteHeader w StatusNotFound)
  end.

(** The record [addNewFish] stores for a body it could read: whatever the
    decoder left in [fish], with the [ID] overwritten by the clock reading. *)
Definition stored_fish (env : Env) (d : data) : Fish :=
  set_ID (json_Unmarshal d zeroFish).1 (Sprintf_d (now env)).

(** [addNewFish].  The body is read first, then the content type is looked
    at; after a decode error the handler writes the 400 and goes on. *)
Definition addNewFish (env : Env) (h : fishesHandler) (w : ResponseWriter)
    (r : Request) : fishesHandler * ResponseWriter :=
  match Body r with
  | BodyErr msg =>
      (h, Write (WriteHeader w StatusInternalServerError) (ErrText (ReadError msg)))
  | BodyData bodyBytes =>
      let ct := Header_Get (Header r) "Content-Type" in
      if decide (ct ≠ "application/json") then
        (h, Write (WriteHeader w StatusUnsupportedMediaType)
              (Text ("need content-type 'application/json' but got '" +:+ ct +:+ "'")))
      else
        let '(fish, err) := json_Unmarshal bodyBytes zeroFish in
        let w := match err with
                 | Some e => Write (WriteHeader w StatusBadRequest) (ErrText e)
                 | None => w
                 end in
        let fish := set_ID fish (Sprintf_d (now env)) in
        (mkFishesHandler (<[ID fish := fish]> (db h)), w)
  end.

(** [fishes]: the method switch on [/fishes]. *)
Definition fishes (env : Env) (h : fishesHandler) (w : ResponseWriter)
    (r : Request) : fishesHandler * ResponseWriter :=
  if decide (Method r = "GET") then getAllFishes env h w r
  else if decide (Method r = "POST") then addNewFish env h w r
  else (h, Write (WriteHeader w StatusMethodNotAllowed) (Text "method not allowed")).

(** [main] registers [fishes] on [/fishes] and [getFish] on [/fishes/]: a
    call is one of the two handlers applied to a request. *)
Inductive call : Type :=
  | CallFishes (r : Request)
  | CallGetFish (r : Request).

Definition serve (env : Env) (h : fishesHandler) (c : call)
    : option (fishesHandler * ResponseWriter) :=
  match c with
  | CallFishes r => Some (fishes env h newResponseWriter r)
  | CallGetFish r => getFish env h newResponseWriter r
  end.

(** The store after a sequence of calls, starting from the empty one; a
    panicking call leaves the store as it found it. *)
Definition step (h : fishesHandler) (ec : Env * call) : fishesHandler :=
  match serve ec.1 h ec.2 with
  | Some (h', _) => h'
  | None => h
  end.

Definition run (trace : list (Env * call)) : fishesHandler :=
  foldl step newFishesHander trace.

Definition reachable (h : fishesHandler) : Prop :=
  ∃ trace, h = run trace.

(** Requests used in the statements below. *)
Definition json_header : gmap string (list string) :=
  {[ "Content-Type" := ["application/json"] ]}.

Definition plain_url (path : string) : url_URL := mkURL path path false "".

Definition GET (path : string) : Request :=
  mkRequest "GET" (plain_url path) ∅
    (BodyData (Malformed "unexpected end of JSON input")).

Definition POST (hdr : gmap string (list string)) (b : body) : Request :=
  mkRequest "POST" (plain_url "/fishes") hdr b.

(** The store operation behind [POST /fishes]: a list of inserts, each with
    the environment it runs in and the body it is sent. *)
Definition insert_call (ed : Env * data) : Env * call :=
  (ed.1, CallFishes (POST json_header (BodyData ed.2))).

Definition inserted (ed : Env * data) : Fish := stored_fish ed.1 ed.2.

(** Whether a call gets as far as the assignment [h.db[fish.ID] = fish], and
    the clock readings of the calls of a trace that do. *)
Definition inserts (c : call) : bool :=
  match c with
  | CallFishes r =>
      bool_decide (Method r = "POST") &&
      match Body r with
      | BodyErr _ => false
      | BodyData _ =>
          bool_decide (Header_Get (Header r) "Content-Type" = "application/json")
      end
  | CallGetFish _ => false
  end.

Definition ticks (trace : list (Env * call)) : list Z :=
  (λ ec, now ec.1) <$> filter (λ ec, inserts ec.2 = true) trace.

(** ** The handlers as interleaved threads

    Every request runs in a goroutine of its own.  What the goroutines share
    is [h.db] and the mutex; each store operation is cut into the atomic
    actions it performs on them, in the order of the source.  The range
    loops are single actions: they run with the mutex held, and every write
    to the map needs the mutex. *)
Module Interleaving.

Inductive op : Type :=
  | Alloc                  (* ids := make([]string, len(h.db)) *)
  | Lock                   (* h.Lock() *)
  | Unlock                 (* h.Unlock() *)
  | RangeIds               (* for id := range h.db { ids[i] = id; i++ } *)
  | RangeFishes            (* for _, fish := range h.db { append ... } *)
  | Lookup (key : string)  (* foundFish, ok := h.db[key] *)
  | Insert (fish : Fish).  (* h.db[fish.ID] = fish *)

Definition getAllFishes_ops : list op := [Lock; RangeFishes; Unlock].
Definition getRandomCoaster_ops : list op := [Alloc; Lock; RangeIds; Unlock].
Definition getFish_ops (key : string) : list op := [Lock; Lookup key; Unlock].
Definition addNewFish_ops (fish : Fish) : list op := [Lock; Insert fish; Unlock].

(** The discipline: an action that reads or writes the map is only run
    between a [Lock] and the next [Unlock]. *)
Fixpoint guarded (held : bool) (ops : list op) : bool :=
  match ops with
  | [] => true
  | Lock :: ops' => guarded true ops'
  | Unlock :: ops' => guarded false ops'
  | _ :: ops' => held && guarded held ops'
  end.

(** A goroutine: the actions still to run and its local variables. *)
Record thread : Type := mkThread {
  code : list op;
  ids : list string;
  fishes : slice Fish;
  found : option Fish;
  panicked : bool
}.

Definition spawn (ops : list op) : thread := mkThread ops [] None None false.

Record state : Type := mkState {
  store : gmap string Fish;
  holder : option nat;
  threads : list thread
}.

(** One action of thread [tid].  [None]: the thread has nothing to run or
    waits for the mutex.  A failed index check makes the goroutine panic:
    it runs nothing more, and since the [Unlock] of [getRandomCoaster] is
    not deferred the mutex stays with it. *)
Definition exec_op (env : Env) (tid : nat) (o : op) (rest : list op)
    (t : thread) (st : state)
    : option (thread * gmap string Fish * option nat) :=
  let next ids fishes found := mkThread rest ids fishes found (panicked t) in
  match o with
  | Alloc =>
      Some (next (make_strings (size (store st))) (fishes t) (found t),
            store st, holder st)
  | Lock =>
      match holder st with
      | None => Some (next (ids t) (fishes t) (found t), store st, Some tid)
      | Some _ => None
      end
  | Unlock =>
      Some (next (ids t) (fishes t) (found t), store st, None)
  | RangeIds =>
      match fill_ids (range_db env (store st)).*1 0 (ids t) with
      | Some ids' => Some (next ids' (fishes t) (found t), store st, holder st)
      | None =>
          Some (mkThread [] (ids t) (fishes t) (found t) true,
                store st, holder st)
      end
  | RangeFishes =>
      Some (next (ids t) (snapshot env (mkFishesHandler (store st))) (found t),
            store st, holder st)
  | Lookup key =>
      Some (next (ids t) (fishes t) (store st !! key), store st, holder st)
  | Insert fish =>
      Some (next (ids t) (fishes t) (found t),
            <[ID fish := fish]> (store st), holder st)
  end.

Definition step (env : Env) (tid : nat) (st : state) : option state :=
  t ← threads st !! tid;
  match code t with
  | [] => None
  | o :: rest =>
      '(t', m, l) ← exec_op env tid o rest t st;
      Some (mkState m l (<[tid := t']> (threads st)))
  end.

(** A schedule names the thread that moves next. *)
Fixpoint exec (env : Env) (schedule : list nat) (st : state) : option state :=
  match schedule with
  | [] => Some st
  | tid :: schedule' => st' ← step env tid st; exec env schedule' st'
  end.

Definition start (m : gmap string Fish) (progs : list (list op)) : state :=
  mkState m None (spawn <$> progs).

End Interleaving.

(** ** Names for the three answers of the handlers below [/fishes/] *)

Definition not_found (w : ResponseWriter) : ResponseWriter :=
  WriteHeader w StatusNotFound.

Definition found_fish (w : ResponseWriter) (f : Fish) : ResponseWriter :=
  Write (WriteHeader (Header_Add w "Content-Type" "application/json") StatusOK)
    (Json (marshal_Fish f)).

Definition redirect (w : ResponseWriter) (target : string) : ResponseWriter :=
  WriteHeader (Header_Add w "Location" ("/fishes/" +:+ target)) StatusFound.

(** ** The admin portal *)

Definition StatusUnauthorized : Z := 401.

(** [os.Getenv]: the value of a variable of the process environment, the
    empty string when it is not set. *)
Definition os_Getenv (environ : gmap string string) (key : string) : string :=
  default "" (environ !! key).

(** [type adminPortal struct]. *)
Record adminPortal : Type := mkAdminPortal {
  password : string
}.

(** [newAdminPortal]; [None] stands for the panic. *)
Definition newAdminPortal (environ : gmap string string) : option adminPortal :=
  let password := os_Getenv environ "ADMIN_PASSWORD" in
  if decide (password = "") then None
  else Some (mkAdminPortal password).

(** [handler].  All it reads of the request is [r.BasicAuth()]: the user
    name and password of the Authorization header and whether the header
    held well-formed Basic credentials; that triple is the argument. *)
Definition handler (a : adminPortal) (w : ResponseWriter)
    (basicAuth : string * string * bool) : ResponseWriter :=
  let '(user, pass, ok) := basicAuth in
  if negb ok || negb (bool_decide (user = "admin"))
     || negb (bool_decide (pass = password a))
  then
    Write (WriteHeader w StatusUnauthorized)
      (Text "You do not have the right permission")
  else Write w (Text "<html><h1>Super secret admin portal </h1></html>").

(** ** Auxiliary notions for the statements *)

(** The number of occurrences of a byte in a string. *)
Fixpoint count_char (c : ascii) (s : string) : nat :=
  match s with
  | EmptyString => 0%nat
  | String c' s' => ((if decide (c' = c) then 1 else 0) + count_char c s')%nat
  end.

(** A goroutine that is done, or that has not yet taken the mutex for the
    operation it runs: its next action is [Lock], or the [Alloc] that
    [getRandomCoaster] runs before its [Lock]. *)
Definition done_or_waiting (t : Interleaving.thread) : bool :=
  match Interleaving.code t with
  | [] => true
  | Interleaving.Lock :: _ => true
  | Interleaving.Alloc :: Interleaving.Lock :: _ => true
  | _ => false
  end.

Definition unfinished (t : Interleaving.thread) : bool :=
  match Interleaving.code t with
  | [] => false
  | _ => true
  end.

(** The two kinds of answers as far as the content type goes: a JSON
    answer has status 200, one JSON body and the header
    [Content-Type: application/json]; a plain answer has no JSON in its
    body and no content type set by the handler. *)
Definition json_answer (w : ResponseWriter) : Prop :=
  sent_header w "Content-Type" = ["application/json"] ∧
  status w = StatusOK ∧ ∃ j, response_body w = [Json j].

Definition plain_answer (w : ResponseWriter) : Prop :=
  sent_header w "Content-Type" = [] ∧
  Forall (λ ch, ∀ j, ch ≠ Json j) (response_body w).

(** ** Sample inputs *)

Definition env0 : Env := mkEnv 1700000000000000000 0 [].
Definition env1 : Env := mkEnv 1700000000000000001 5 [1%nat].

Definition salmon : data :=
  Document (JObj [("name", JStr "Salmon"); ("environment", JStr "river");
                  ("max_length", JInt 90)]).
Definition trout : data :=
  Document (JObj [("id", JStr "mine"); ("name", JStr "Trout")]).
Definition bad_length : data :=
  Document (JObj [("name", JStr "Salmon"); ("max_length", JStr "long")]).
Definition truncated : data := Malformed "unexpected end of JSON input".

Definition text_header : gmap string (list string) :=
  {[ "Content-Type" := ["text/plain"] ]}.

(** [GET /fishes/random?x=1]. *)
Definition random_with_query : Request :=
  mkRequest "GET" (mkURL "/fishes/random" "/fishes/random" false "x=1") ∅
    (BodyData truncated).

(** The store after one insert at [env0], and a store holding the single
    record [123]. *)
Definition one_salmon : fishesHandler := run [insert_call (env0, salmon)].

Definition pike : Fish := mkFish "123" "Pike" "lake" 120.
Definition one_pike : fishesHandler := mkFishesHandler {[ "123" := pike ]}.

Definition salmon_and_trout : fishesHandler :=
  run [insert_call (env0, salmon); insert_call (env1, trout)].

Definition environ0 : gmap string string := {[ "ADMIN_PASSWORD" := "s3cret" ]}.

(** The mutex left locked by a goroutine that is gone, and three requests
    that came in afterwards; then the same after the one action any of them
    can take. *)
Definition locked_up : Interleaving.state :=
  Interleaving.mkState ∅ (Some 0%nat)
    [Interleaving.mkThread [] [] None None true;
     Interleaving.spawn Interleaving.getAllFishes_ops;
     Interleaving.spawn (Interleaving.addNewFish_ops pike);
     Interleaving.spawn Interleaving.getRandomCoaster_ops].

Definition locked_up_later : Interleaving.state :=
  Interleaving.mkState ∅ (Some 0%nat)
    [Interleaving.mkThread [] [] None None true;
     Interleaving.spawn Interleaving.getAllFishes_ops;
     Interleaving.spawn (Interleaving.addNewFish_ops pike);
     Interleaving.mkThread
       [Interleaving.Lock; Interleaving.RangeIds; Interleaving.Unlock]
       [] None None false].

(** * Properties *)

(** ** Facts about the library pieces *)

Section split_facts.
Variable sep : ascii.

Lemma strings_Split_sep s :
  strings_Split (String sep s) sep = "" :: strings_Split s sep.
Proof. simpl. by rewrite decide_True. Qed.

Lemma strings_Split_nonempty s : strings_Split s sep ≠ [].
Proof.
  induction s as [|c s IH]; simpl; [done|].
  case_decide; [done|]. by destruct (strings_Split s sep).
Qed.

(** A string without the separator is its own single component. *)
Lemma strings_Split_none s :
  occurs sep s = false → strings_Split s sep = [s].
Proof.
  induction s as [|c s IH]; simpl; [done|].
  intros [Hc Hs]%orb_false_elim. apply bool_decide_eq_false in Hc.
  rewrite decide_False by done. by rewrite IH.
Qed.

(** And only such a string has a single component. *)
Lemma strings_Split_single s p :
  strings_Split s sep = [p] → p = s ∧ occurs sep s = false.
Proof.
  revert p. induction s as [|c s IH]; simpl; intros p.
  - by intros [= <-].
  - case_decide as Hc.
    + intros [= _ Hs]. by destruct (strings_Split_nonempty s).
    + destruct (strings_Split s sep) as [|q qs] eqn:Hs.
      { by destruct (strings_Split_nonempty s). }
      intros [= <- ->]. destruct (IH q eq_refl) as [-> Ho].
      split; [done|]. rewrite Ho, orb_false_r. by apply bool_decide_eq_false.
Qed.

(** A prefix without the separator, closed by one, is the first
    component. *)
Lemma strings_Split_prefix pre s :
  occurs sep pre = false →
  strings_Split (pre +:+ String sep s) sep = pre :: strings_Split s sep.
Proof.
  induction pre as [|c pre IH]; simpl; intros Hpre.
  - by rewrite decide_True.
  - apply orb_false_elim in Hpre as [Hc Hpre]. apply bool_decide_eq_false in Hc.
    rewrite decide_False by done. by rewrite IH.
Qed.
End split_facts.

(** The components of [/fishes/rest] are the empty string, [fishes], and
    the components of [rest]. *)
Lemma strings_Split_fishes rest :
  strings_Split ("/fishes/" +:+ rest) "/" = "" :: "fishes" :: strings_Split rest "/".
Proof.
  change ("/fishes/" +:+ rest) with (String "/" ("fishes" +:+ String "/" rest)).
  by rewrite strings_Split_sep, strings_Split_prefix.
Qed.

Lemma occurs_app c s t : occurs c (s +:+ t) = occurs c s || occurs c t.
Proof. induction s as [|c' s IH]; simpl; [done|]. by rewrite IH, orb_assoc. Qed.

Lemma all_chars_occurs P c s :
  all_chars P s = true → P c = false → occurs c s = false.
Proof.
  induction s as [|c' s IH]; simpl; [done|].
  intros [Hc Hs]%andb_prop Hn. rewrite IH, orb_false_r by done.
  apply bool_decide_eq_false. congruence.
Qed.

(** [%d] prints digits and the minus sign, and at least one byte. *)
Lemma pretty_N_go_decimal x s :
  all_chars decimal_char s = true →
  all_chars decimal_char (pretty_N_go x s) = true.
Proof.
  revert s. induction (N.lt_wf_0 x) as [x _ IH]; intros s Hs.
  destruct (decide (x = 0)%N) as [->|Hx]; [by rewrite pretty_N_go_0|].
  rewrite pretty_N_go_step by lia. apply IH.
  - apply N.div_lt; lia.
  - simpl. rewrite Hs, andb_true_r.
    unfold pretty_N_char. by repeat case_match.
Qed.

Lemma pretty_N_go_nonempty x s : s ≠ "" → pretty_N_go x s ≠ "".
Proof.
  revert s. induction (N.lt_wf_0 x) as [x _ IH]; intros s Hs.
  destruct (decide (x = 0)%N) as [->|Hx]; [by rewrite pretty_N_go_0|].
  rewrite pretty_N_go_step by lia. apply IH; [apply N.div_lt; lia|done].
Qed.

Lemma pretty_N_decimal (x : N) : all_chars decimal_char (pretty x) = true.
Proof.
  unfold pretty, pretty_N. case_decide; [done|]. by apply pretty_N_go_decimal.
Qed.

Lemma pretty_N_nonempty (x : N) : pretty x ≠ "".
Proof.
  unfold pretty, pretty_N. case_decide; [done|].
  rewrite pretty_N_go_step by lia. by apply pretty_N_go_nonempty.
Qed.

Lemma Sprintf_d_decimal n : all_chars decimal_char (Sprintf_d n) = true.
Proof.
  unfold Sprintf_d, pretty, pretty_Z. destruct n as [|p|p]; [done|..].
  - apply pretty_N_decimal.
  - simpl. apply pretty_N_decimal.
Qed.

Lemma Sprintf_d_nonempty n : Sprintf_d n ≠ "".
Proof.
  unfold Sprintf_d, pretty, pretty_Z. destruct n as [|p|p]; [done| |done].
  apply pretty_N_nonempty.
Qed.

Lemma Sprintf_d_inj m n : Sprintf_d m = Sprintf_d n → m = n.
Proof. apply pretty_Z_inj. Qed.

(** So an identifier holds no [/] and no [?], and is not [random]. *)
Lemma Sprintf_d_no_slash n : occurs "/" (Sprintf_d n) = false.
Proof. by apply (all_chars_occurs decimal_char); [apply Sprintf_d_decimal|]. Qed.

Lemma Sprintf_d_no_query n : occurs "?" (Sprintf_d n) = false.
Proof. by apply (all_chars_occurs decimal_char); [apply Sprintf_d_decimal|]. Qed.

Lemma Sprintf_d_not_random n : Sprintf_d n ≠ "random".
Proof.
  intros Heq. pose proof (Sprintf_d_decimal n) as Hd. by rewrite Heq in Hd.
Qed.

(** ** Facts about ranging over the map *)

Lemma shuffle_Permutation {A} (picks : list nat) (l : list A) :
  shuffle picks l ≡ₚ l.
Proof.
  revert l. induction picks as [|k picks IH]; intros l; simpl; [done|].
  destruct (l !! _) as [x|] eqn:Hx; [|done].
  rewrite IH. symmetry. by apply delete_Permutation.
Qed.

Lemma range_db_Permutation env m : range_db env m ≡ₚ map_to_list m.
Proof. apply shuffle_Permutation. Qed.

Lemma range_db_length env m : length (range_db env m) = size m.
Proof. by rewrite range_db_Permutation, length_map_to_list. Qed.

Lemma range_db_empty env : range_db env ∅ = [].
Proof.
  apply Permutation_nil_r. by rewrite range_db_Permutation, map_to_list_empty.
Qed.

Lemma range_db_singleton env k f : range_db env {[k := f]} = [(k, f)].
Proof.
  apply Permutation_singleton_r.
  by rewrite range_db_Permutation, map_to_list_singleton.
Qed.

(** The loop of [getRandomCoaster] on a slice made for as many keys as the
    range yields: no index check fails and the slice ends up holding the
    keys in range order. *)
Lemma fill_ids_app pre keys :
  fill_ids keys (length pre) (pre ++ make_strings (length keys))
  = Some (pre ++ keys).
Proof.
  unfold make_strings.
  revert pre. induction keys as [|k keys IH]; intros pre; simpl; [done|].
  rewrite decide_True by (rewrite length_app; simpl; lia).
  rewrite insert_app_r_alt, Nat.sub_diag by done. simpl.
  specialize (IH (pre ++ [k])).
  rewrite length_app, <-!(assoc_L (++)) in IH. simpl in IH.
  by rewrite Nat.add_1_r in IH.
Qed.

Lemma fill_ids_make keys :
  fill_ids keys 0 (make_strings (length keys)) = Some keys.
Proof. apply (fill_ids_app []). Qed.

(** On a slice too short for the keys that are left, an index check fails. *)
Lemma fill_ids_short keys i ids :
  (i ≤ length ids < i + length keys)%nat → fill_ids keys i ids = None.
Proof.
  revert i ids. induction keys as [|k keys IH]; intros i ids Hlen; simpl in *.
  - lia.
  - case_decide; [|done]. apply IH. rewrite length_insert. lia.
Qed.

(** The slice [getAllFishes] builds: nil when the range is empty, else the
    fishes in range order. *)
Lemma foldl_append (s : slice Fish) (l : list (string * Fish)) :
  foldl (λ fishes kv, append fishes kv.2) s l
  = match l with [] => s | _ => Some (default [] s ++ l.*2) end.
Proof.
  revert s. induction l as [|kv l IH]; intros s; [done|].
  simpl. rewrite IH. unfold append. simpl.
  destruct l; simpl; [done|]. by rewrite <-(assoc_L (++)).
Qed.

Lemma snapshot_eq env h :
  snapshot env h
  = match range_db env (db h) with [] => None | l => Some l.*2 end.
Proof. unfold snapshot. rewrite foldl_append. by destruct (range_db _ _). Qed.

(** ** Facts about the handlers *)

(** Run alone, [getRandomCoaster] never fails an index check: [ids] holds
    the keys in range order when the loop is done. *)
Lemma getRandomCoaster_eq env h w r :
  getRandomCoaster env h w r
  = Some (h, answer_random env w (range_db env (db h)).*1).
Proof.
  unfold getRandomCoaster.
  rewrite <-(range_db_length env), <-(length_fmap fst), fill_ids_make.
  done.
Qed.

(** [addNewFish] on a body it can read, under the JSON content type. *)
Lemma addNewFish_db env h w r d :
  Body r = BodyData d →
  Header_Get (Header r) "Content-Type" = "application/json" →
  db (addNewFish env h w r).1
  = <[Sprintf_d (now env) := stored_fish env d]> (db h).
Proof.
  intros Hb Hct. unfold addNewFish, stored_fish. rewrite Hb, Hct.
  rewrite decide_False by (intros Hne; by apply Hne).
  by destruct (json_Unmarshal d zeroFish) as [fish err].
Qed.

Lemma getAllFishes_store env h w r : (getAllFishes env h w r).1 = h.
Proof.
  unfold getAllFishes. by destruct (json_Marshal_Fishes _) as [j [e|]].
Qed.

Lemma getFish_store env h w r h' w' :
  getFish env h w r = Some (h', w') → h' = h.
Proof.
  unfold getFish. rewrite getRandomCoaster_eq.
  repeat case_match; naive_solver.
Qed.

Lemma step_fishes h env r :
  step h (env, CallFishes r) = (fishes env h newResponseWriter r).1.
Proof. unfold step, serve. simpl. by destruct (fishes _ _ _ _). Qed.

Lemma step_getFish h env r : step h (env, CallGetFish r) = h.
Proof.
  unfold step, serve. simpl.
  destruct (getFish _ _ _ _) as [[h' w']|] eqn:Hg; [|done].
  by rewrite (getFish_store _ _ _ _ _ _ Hg).
Qed.

(** A call either leaves the map alone or, when it [inserts], adds one entry
    under the decimal clock reading. *)
Lemma step_db h ec :
  (inserts ec.2 = false ∧ db (step h ec) = db h) ∨
  (inserts ec.2 = true ∧
   ∃ d, db (step h ec) = <[Sprintf_d (now ec.1) := stored_fish ec.1 d]> (db h)).
Proof.
  destruct ec as [env [r|r]]; simpl.
  - rewrite step_fishes. unfold fishes. case_decide as Hget.
    + left. rewrite getAllFishes_store. split; [|done].
      by rewrite Hget.
    + case_decide as Hpost.
      * rewrite bool_decide_eq_true_2 by done. simpl.
        destruct (Body r) as [msg|d] eqn:Hb.
        { left. split; [done|]. unfold addNewFish. by rewrite Hb. }
        case_bool_decide as Hct.
        { right. split; [done|]. exists d. by apply addNewFish_db. }
        left. split; [done|]. unfold addNewFish. rewrite Hb.
        by rewrite decide_True.
      * left. by rewrite bool_decide_eq_false_2.
  - left. by rewrite step_getFish.
Qed.

Lemma run_snoc trace ec : run (trace ++ [ec]) = step (run trace) ec.
Proof. unfold run. by rewrite foldl_app. Qed.

Lemma ticks_snoc trace ec :
  ticks (trace ++ [ec])
  = ticks trace ++ (if inserts ec.2 then [now ec.1] else []).
Proof.
  unfold ticks. rewrite filter_app, fmap_app. f_equal.
  rewrite filter_cons. destruct (inserts ec.2); by case_decide.
Qed.

(** Every entry of a reachable store sits under its own [ID], and its key
    is the decimal rendering of the clock reading of an earlier insert. *)
Lemma run_entries trace k f :
  db (run trace) !! k = Some f →
  ID f = k ∧ ∃ t, t ∈ ticks trace ∧ k = Sprintf_d t.
Proof.
  revert k f. induction trace as [|ec trace IH] using rev_ind; intros k f.
  - unfold run. simpl. by rewrite lookup_empty.
  - rewrite run_snoc, ticks_snoc.
    destruct (step_db (run trace) ec) as [[-> ->]|[-> [d ->]]].
    + rewrite app_nil_r. apply IH.
    + destruct (decide (k = Sprintf_d (now ec.1))) as [->|Hk].
      * rewrite lookup_insert_eq. intros [= <-]. split; [done|].
        exists (now ec.1). split; [|done].
        apply elem_of_app. right. constructor.
      * rewrite lookup_insert_ne by done. intros Hl.
        destruct (IH _ _ Hl) as [? (t & ? & ?)]. split; [done|].
        exists t. split; [|done]. apply elem_of_app. by left.
Qed.

(** ** Facts about the answers of [getFish] *)

Lemma append_empty_r s : s +:+ "" = s.
Proof.
  induction s as [|c s IH]; [done|].
  change (String c (s +:+ "") = String c s). by rewrite IH.
Qed.

Lemma URL_String_plain path : URL_String (plain_url path) = path.
Proof. unfold URL_String, plain_url. simpl. apply append_empty_r. Qed.

(** With a query, the URL string carries the query after the path. *)
Lemma URL_String_query p ep force q :
  force = true ∨ q ≠ "" →
  URL_String (mkURL p ep force q) = ep +:+ "?" +:+ q.
Proof.
  intros Hq. unfold URL_String. simpl.
  destruct Hq as [->|Hq]; [done|].
  rewrite (bool_decide_eq_false_2 _ Hq). by rewrite orb_true_r.
Qed.

Lemma append_assoc s t u : (s +:+ t) +:+ u = s +:+ (t +:+ u).
Proof.
  induction s as [|c s IH]; [done|].
  change (String c ((s +:+ t) +:+ u) = String c (s +:+ (t +:+ u))).
  by rewrite IH.
Qed.

Lemma redirect_response target :
  status (redirect newResponseWriter target) = StatusFound ∧
  sent_header (redirect newResponseWriter target) "Location"
    = ["/fishes/" +:+ target].
Proof.
  split; [done|]. unfold sent_header, redirect, Header_Add, WriteHeader. simpl.
  by rewrite lookup_insert_eq, lookup_empty.
Qed.

(** A URL string [/fishes/seg] with a one-component [seg] other than
    [random] is answered from the store. *)
Lemma getFish_segment env h w r seg :
  URL_String (URL r) = "/fishes/" +:+ seg →
  occurs "/" seg = false →
  seg ≠ "random" →
  getFish env h w r
  = Some (h, match db h !! seg with
             | Some f => found_fish w f
             | None => not_found w
             end).
Proof.
  intros Hu Hs Hr. unfold getFish.
  rewrite Hu, strings_Split_fishes, (strings_Split_none _ _ Hs).
  rewrite decide_False by done. by destruct (db h !! seg).
Qed.

(** What [answer_random] does with the keys of a store. *)
Lemma answer_random_pick env w ids :
  ids ≠ [] →
  ∃ id, id ∈ ids ∧ answer_random env w ids = redirect w id ∧
        (∀ id', ids = [id'] → id = id').
Proof.
  intros Hne. unfold answer_random.
  destruct ids as [|id0 ids]; [done|]. rewrite decide_False by done.
  destruct ids as [|id1 ids].
  - exists id0. split; [by constructor|]. split; [done|]. by intros ? [= <-].
  - rewrite decide_False by done.
    assert (rnd env mod length (id0 :: id1 :: ids)
            < length (id0 :: id1 :: ids))%nat as Hlt
      by (apply Nat.mod_upper_bound; simpl; lia).
    apply lookup_lt_is_Some_2 in Hlt as [id Hid].
    exists id. rewrite Hid. split; [by eapply list_elem_of_lookup_2|].
    split; [done|]. intros ? [=].
Qed.

(** ** Sequences of inserts *)

Lemma step_insert_call h ed :
  db (step h (insert_call ed))
  = <[Sprintf_d (now ed.1) := inserted ed]> (db h).
Proof.
  unfold insert_call. rewrite step_fishes. unfold fishes. simpl.
  by apply addNewFish_db.
Qed.

Lemma ticks_insert_calls posts :
  ticks (insert_call <$> posts) = (λ ed, now ed.1) <$> posts.
Proof.
  induction posts as [|ed posts IH] using rev_ind; [done|].
  by rewrite !fmap_app, <-IH, (ticks_snoc _ (insert_call ed)).
Qed.

(** With pairwise distinct clock readings no insert overwrites another: the
    entries of the store are the inserted records under their identifiers. *)
Lemma run_insert_calls_entries posts :
  NoDup ((λ ed, now ed.1) <$> posts) →
  map_to_list (db (run (insert_call <$> posts)))
  ≡ₚ (λ ed, (ID (inserted ed), inserted ed)) <$> posts.
Proof.
  induction posts as [|ed posts IH] using rev_ind; intros Hnd.
  - unfold run. simpl. by rewrite map_to_list_empty.
  - rewrite !fmap_app in *. simpl in *. rewrite run_snoc, step_insert_call.
    apply NoDup_app in Hnd as (Hnd & Hfresh & _).
    rewrite map_to_list_insert.
    + rewrite IH by done. by rewrite <-Permutation_cons_append.
    + destruct (db (run (insert_call <$> posts)) !! Sprintf_d (now ed.1))
        as [f|] eqn:Hl; [|done].
      apply run_entries in Hl as [_ (t & Ht & Heq)].
      apply Sprintf_d_inj in Heq. subst t.
      rewrite ticks_insert_calls in Ht. destruct (Hfresh _ Ht). constructor.
Qed.

Lemma elements_of_snapshot env h :
  elements_of (snapshot env h) = (range_db env (db h)).*2.
Proof. rewrite snapshot_eq. by destruct (range_db env (db h)). Qed.

(** The answer of [GET /fishes]: 200, with the marshalled snapshot. *)
Lemma fishes_GET_response env h :
  status (fishes env h newResponseWriter (GET "/fishes")).2 = StatusOK ∧
  response_body (fishes env h newResponseWriter (GET "/fishes")).2
  = [Json (json_Marshal_Fishes (snapshot env h)).1].
Proof.
  unfold fishes. simpl. unfold getAllFishes.
  by destruct (snapshot env h).
Qed.

(** ** The lock discipline *)

(** Scheduled alone, the actions of [getRandomCoaster] compute what the
    handler computes: [ids] ends up as the keys in range order, and the
    mutex is free again. *)
Lemma getRandomCoaster_ops_alone env m :
  Interleaving.exec env [0; 0; 0; 0]%nat
    (Interleaving.start m [Interleaving.getRandomCoaster_ops])
  = Some (Interleaving.mkState m None
            [Interleaving.mkThread [] (range_db env m).*1 None None false]).
Proof.
  unfold Interleaving.start, Interleaving.getRandomCoaster_ops. simpl.
  unfold Interleaving.step. simpl.
  rewrite <-(range_db_length env), <-(length_fmap fst), fill_ids_make.
  done.
Qed.

(** * The claims *)

(** C1.  The claim: a POST whose body fails to decode is answered 400 with
    the decode error and leaves the store as it was.  The code writes the
    400 and the error, but does not return: the fish as the decoder left it
    gets the clock reading as [ID] and is stored.  So the store gains an
    entry, or has the entry under that key replaced. *)
Theorem addNewFish_decode_error_inserts env h r d fish e :
  Body r = BodyData d →
  Header_Get (Header r) "Content-Type" = "application/json" →
  json_Unmarshal d zeroFish = (fish, Some e) →
  status (addNewFish env h newResponseWriter r).2 = StatusBadRequest ∧
  response_body (addNewFish env h newResponseWriter r).2 = [ErrText e] ∧
  db (addNewFish env h newResponseWriter r).1
    = <[Sprintf_d (now env) := set_ID fish (Sprintf_d (now env))]> (db h) ∧
  (db h !! Sprintf_d (now env) = None →
   db (addNewFish env h newResponseWriter r).1 ≠ db h).
Proof.
  intros Hb Hct Hdec.
  assert (db (addNewFish env h newResponseWriter r).1
          = <[Sprintf_d (now env) := set_ID fish (Sprintf_d (now env))]> (db h))
    as Hdb.
  { rewrite (addNewFish_db _ _ _ _ d) by done.
    unfold stored_fish. by rewrite Hdec. }
  split_and!; [| |done|].
  - unfold addNewFish. rewrite Hb, Hct.
    rewrite decide_False by (intros Hne; by apply Hne). by rewrite Hdec.
  - unfold addNewFish. rewrite Hb, Hct.
    rewrite decide_False by (intros Hne; by apply Hne). by rewrite Hdec.
  - intros Hnone Heq. rewrite Hdb in Heq.
    apply (f_equal (λ m, m !! Sprintf_d (now env))) in Heq.
    rewrite lookup_insert_eq, Hnone in Heq. done.
Qed.

Lemma addNewFish_decode_error_inserts_witness :
  status (addNewFish env0 newFishesHander newResponseWriter
            (POST json_header (BodyData truncated))).2 = StatusBadRequest ∧
  db (addNewFish env0 newFishesHander newResponseWriter
        (POST json_header (BodyData truncated))).1
    = {[ "1700000000000000000" := mkFish "1700000000000000000" "" "" 0 ]}.
Proof.
  destruct (addNewFish_decode_error_inserts env0 newFishesHander
              (POST json_header (BodyData truncated)) truncated zeroFish
              (SyntaxError "unexpected end of JSON input")
              eq_refl eq_refl eq_refl) as (Hs & _ & Hdb & _).
  split; [exact Hs|]. rewrite Hdb. reflexivity.
Defined.

(** A body that is well-formed JSON but puts a string where the integer
    belongs: the answer is 400, and the half-decoded fish is in the store. *)
Example addNewFish_type_error_stored :
  status (addNewFish env0 newFishesHander newResponseWriter
            (POST json_header (BodyData bad_length))).2 = StatusBadRequest ∧
  map_to_list (db (addNewFish env0 newFishesHander newResponseWriter
                     (POST json_header (BodyData bad_length))).1)
    = [("1700000000000000000", mkFish "1700000000000000000" "Salmon" "" 0)].
Proof. by vm_compute. Qed.

(** C2, as stated, fails: two inserts that read the same clock value get
    the same identifier.  After the first insert at [env0], the identifier
    a second insert at [env0] assigns is already a key of the store. *)
Lemma insert_same_tick_reuses_id :
  db (run [insert_call (env0, salmon)]) !! ID (inserted (env0, trout))
    = Some (inserted (env0, salmon)) ∧
  size (db (run [insert_call (env0, salmon); insert_call (env0, trout)])) = 1%nat.
Proof. by vm_compute. Qed.

(** C2, amended.  In every store reached by a sequence of calls, an insert
    assigns the decimal rendering of its clock reading: a non-empty string,
    and not a key of the store before the call provided no earlier insert
    read the same clock value.  The record is stored under it. *)
Theorem insert_id_fresh_on_new_tick trace env r d :
  Body r = BodyData d →
  Header_Get (Header r) "Content-Type" = "application/json" →
  now env ∉ ticks trace →
  ID (stored_fish env d) = Sprintf_d (now env) ∧
  ID (stored_fish env d) ≠ "" ∧
  db (run trace) !! ID (stored_fish env d) = None ∧
  db (addNewFish env (run trace) newResponseWriter r).1 !! ID (stored_fish env d)
    = Some (stored_fish env d).
Proof.
  intros Hb Hct Hfresh.
  assert (ID (stored_fish env d) = Sprintf_d (now env)) as Hid by done.
  rewrite Hid. split_and!; [done|apply Sprintf_d_nonempty| |].
  - destruct (db (run trace) !! Sprintf_d (now env)) as [f|] eqn:Hl; [|done].
    apply run_entries in Hl as [_ (t & Ht & Heq)].
    apply Sprintf_d_inj in Heq. by rewrite Heq in Hfresh.
  - rewrite (addNewFish_db _ _ _ _ d) by done. apply lookup_insert_eq.
Qed.

Lemma insert_id_fresh_on_new_tick_witness :
  ID (stored_fish env1 trout) = "1700000000000000001" ∧
  db (run [insert_call (env0, salmon)]) !! ID (stored_fish env1 trout) = None.
Proof.
  destruct (insert_id_fresh_on_new_tick [insert_call (env0, salmon)] env1
              (POST json_header (BodyData trout)) trout eq_refl eq_refl)
    as (Hid & _ & Hnone & _).
  - vm_compute. intros Hin. apply list_elem_of_singleton in Hin. discriminate Hin.
  - split; [exact Hid | exact Hnone].
Defined.

(** C3.  The claim: on the empty store [GET /fishes] answers 200 with the
    empty JSON array.  The code answers 200, but the slice it marshals was
    declared without a value and never appended to, and such a slice is
    encoded as [null]. *)
Theorem getAllFishes_empty_store_null env :
  status (fishes env newFishesHander newResponseWriter (GET "/fishes")).2 = StatusOK ∧
  sent_header (fishes env newFishesHander newResponseWriter (GET "/fishes")).2
    "Content-Type" = ["application/json"] ∧
  response_body (fishes env newFishesHander newResponseWriter (GET "/fishes")).2
    = [Json JNull] ∧
  response_body (fishes env newFishesHander newResponseWriter (GET "/fishes")).2
    ≠ [Json (JArr [])].
Proof.
  assert (snapshot env newFishesHander = None) as Hs.
  { rewrite snapshot_eq. by rewrite range_db_empty. }
  unfold fishes. simpl. unfold getAllFishes. rewrite Hs. simpl.
  split_and!; done.
Qed.

(** With one record in the store the body is an array. *)
Example getAllFishes_one_record :
  response_body
    (fishes env1 (run [insert_call (env0, salmon)]) newResponseWriter (GET "/fishes")).2
  = [Json (JArr [JObj [("id", JStr "1700000000000000000"); ("name", JStr "Salmon");
                       ("environment", JStr "river"); ("max_length", JInt 90)]])].
Proof. by vm_compute. Qed.

(** C4, as stated, fails: of two inserts that read the same clock value the
    second overwrites the first.  The list then holds one record where two
    were returned, and the identifier returned for the first leads to the
    second. *)
Lemma same_tick_inserts_lose_a_record :
  length (inserted <$> [(env0, salmon); (env0, trout)]) = 2%nat ∧
  elements_of (snapshot env1 (run (insert_call <$> [(env0, salmon); (env0, trout)])))
    = [mkFish "1700000000000000000" "Trout" "" 0] ∧
  Name (inserted (env0, salmon)) = "Salmon" ∧
  db (run (insert_call <$> [(env0, salmon); (env0, trout)]))
    !! ID (inserted (env0, salmon))
    = Some (mkFish "1700000000000000000" "Trout" "" 0).
Proof. by vm_compute. Qed.

(** C4, amended.  For every sequence of inserts, from the empty store, whose
    clock readings are pairwise distinct: the collection the list operation
    snapshots afterwards is, up to order, the collection of the inserted
    records, and after at least one insert [GET /fishes] answers with their
    array in some order; each of them is in the store under its identifier
    and is what [GET /fishes/id] returns; and the identifier of an inserted
    record is the decimal clock reading of its insert, whatever [id] the
    body carried, the other fields being those the decoder read. *)
Theorem inserts_then_list_and_get (posts : list (Env * data)) :
  NoDup ((λ ed, now ed.1) <$> posts) →
  (∀ env, elements_of (snapshot env (run (insert_call <$> posts)))
          ≡ₚ inserted <$> posts) ∧
  (∀ env, posts ≠ [] →
     ∃ l, l ≡ₚ inserted <$> posts ∧
          response_body (fishes env (run (insert_call <$> posts))
                           newResponseWriter (GET "/fishes")).2
          = [Json (JArr (marshal_Fish <$> l))]) ∧
  (∀ env ed, ed ∈ posts →
     db (run (insert_call <$> posts)) !! ID (inserted ed) = Some (inserted ed) ∧
     getFish env (run (insert_call <$> posts)) newResponseWriter
       (GET ("/fishes/" +:+ ID (inserted ed)))
     = Some (run (insert_call <$> posts),
             found_fish newResponseWriter (inserted ed))) ∧
  (∀ ed, ed ∈ posts →
     ID (inserted ed) = Sprintf_d (now ed.1) ∧
     Name (inserted ed) = Name (json_Unmarshal ed.2 zeroFish).1 ∧
     Environment (inserted ed) = Environment (json_Unmarshal ed.2 zeroFish).1 ∧
     MaxLength (inserted ed) = MaxLength (json_Unmarshal ed.2 zeroFish).1).
Proof.
  intros Hnd. pose proof (run_insert_calls_entries posts Hnd) as Hentries.
  assert (∀ ed, ed ∈ posts →
            db (run (insert_call <$> posts)) !! ID (inserted ed)
            = Some (inserted ed)) as Hlookup.
  { intros ed Hin. apply elem_of_map_to_list. rewrite Hentries.
    by apply (list_elem_of_fmap_2 (λ ed, (ID (inserted ed), inserted ed))). }
  split_and!.
  - intros env. rewrite elements_of_snapshot, range_db_Permutation, Hentries.
    by rewrite <-list_fmap_compose.
  - intros env Hne.
    exists (range_db env (db (run (insert_call <$> posts)))).*2. split.
    + rewrite range_db_Permutation, Hentries. by rewrite <-list_fmap_compose.
    + destruct (fishes_GET_response env (run (insert_call <$> posts))) as [_ ->].
      rewrite snapshot_eq.
      destruct (range_db env (db (run (insert_call <$> posts)))) as [|kv l] eqn:Hr;
        [|done].
      pose proof (range_db_Permutation env (db (run (insert_call <$> posts))))
        as Hp.
      rewrite Hr, Hentries in Hp. apply Permutation_nil_l in Hp.
      symmetry in Hp. by apply fmap_nil_inv in Hp.
  - intros env ed Hin. split; [by apply Hlookup|].
    rewrite (getFish_segment _ _ _ _ (ID (inserted ed))).
    + by rewrite Hlookup.
    + simpl. apply URL_String_plain.
    + apply Sprintf_d_no_slash.
    + apply Sprintf_d_not_random.
  - done.
Qed.

Lemma inserts_then_list_and_get_witness :
  elements_of (snapshot env1 (run (insert_call <$> [(env0, salmon); (env1, trout)])))
  ≡ₚ [mkFish "1700000000000000000" "Salmon" "river" 90;
      mkFish "1700000000000000001" "Trout" "" 0] ∧
  ID (inserted (env1, trout)) = "1700000000000000001".
Proof.
  assert (NoDup ((λ ed : Env * data, now ed.1) <$> [(env0, salmon); (env1, trout)]))
    as Hnd.
  { apply NoDup_cons. split; [|apply NoDup_singleton].
    intros Hin. apply list_elem_of_singleton in Hin. discriminate Hin. }
  destruct (inserts_then_list_and_get [(env0, salmon); (env1, trout)] Hnd)
    as (Hlist & _ & _ & Hid).
  split; [exact (Hlist env1)|].
  apply (Hid (env1, trout)). right. left.
Defined.

(** C5, as stated, fails: the body is read before the content type is
    looked at, so a request of the wrong content type whose body cannot be
    read is answered 500. *)
Lemma wrong_type_unreadable_body_500 :
  Header_Get text_header "Content-Type" = "text/plain" ∧
  status (addNewFish env0 newFishesHander newResponseWriter
            (POST text_header (BodyErr "unexpected EOF"))).2
    = StatusInternalServerError ∧
  response_body (addNewFish env0 newFishesHander newResponseWriter
                   (POST text_header (BodyErr "unexpected EOF"))).2
    = [ErrText (ReadError "unexpected EOF")].
Proof. by vm_compute. Qed.

(** C5, amended.  The body is read first: a failing read yields 500 with the
    error text whatever the content type.  Then the content type is checked:
    when the body was read, any value other than [application/json] (the
    empty value of a missing header too) yields 415 with an explanatory
    body, whatever the body holds.  Neither case touches the store. *)
Theorem addNewFish_read_then_content_type env h r :
  (∀ msg, Body r = BodyErr msg →
     (addNewFish env h newResponseWriter r).1 = h ∧
     status (addNewFish env h newResponseWriter r).2 = StatusInternalServerError ∧
     response_body (addNewFish env h newResponseWriter r).2
       = [ErrText (ReadError msg)]) ∧
  (∀ d, Body r = BodyData d →
     Header_Get (Header r) "Content-Type" ≠ "application/json" →
     (addNewFish env h newResponseWriter r).1 = h ∧
     status (addNewFish env h newResponseWriter r).2 = StatusUnsupportedMediaType ∧
     response_body (addNewFish env h newResponseWriter r).2
       = [Text ("need content-type 'application/json' but got '"
                +:+ Header_Get (Header r) "Content-Type" +:+ "'")]).
Proof.
  split.
  - intros msg Hb. unfold addNewFish. by rewrite Hb.
  - intros d Hb Hct. unfold addNewFish. rewrite Hb.
    by rewrite decide_True.
Qed.

(** The scenario of the specification: [text/plain] with a readable body. *)
Lemma addNewFish_read_then_content_type_witness :
  status (addNewFish env0 newFishesHander newResponseWriter
            (POST text_header (BodyData salmon))).2 = StatusUnsupportedMediaType ∧
  response_body (addNewFish env0 newFishesHander newResponseWriter
                   (POST text_header (BodyData salmon))).2
    = [Text "need content-type 'application/json' but got 'text/plain'"].
Proof.
  destruct (addNewFish_read_then_content_type env0 newFishesHander
              (POST text_header (BodyData salmon))) as [_ H415].
  destruct (H415 salmon eq_refl) as (_ & Hs & Hb).
  - intros Heq. discriminate Heq.
  - split; [exact Hs | exact Hb].
Defined.

(** C6.  [GET /fishes/random] never panics.  On a store without records
    the answer is 404; on a store with the single record [id] it is 302
    with [Location: /fishes/id]; on any store with records it is 302 with
    the location of one of the stored identifiers. *)
Theorem getFish_random_redirect env h :
  ∃ w', getFish env h newResponseWriter (GET "/fishes/random") = Some (h, w') ∧
    (db h = ∅ → status w' = StatusNotFound ∧ sent_header w' "Location" = []) ∧
    (∀ id f, db h = {[id := f]} →
       status w' = StatusFound ∧
       sent_header w' "Location" = ["/fishes/" +:+ id]) ∧
    (db h ≠ ∅ → ∃ id, is_Some (db h !! id) ∧
       status w' = StatusFound ∧
       sent_header w' "Location" = ["/fishes/" +:+ id]).
Proof.
  exists (answer_random env newResponseWriter (range_db env (db h)).*1).
  split_and!.
  - unfold getFish. simpl. by rewrite getRandomCoaster_eq.
  - intros ->. by rewrite range_db_empty.
  - intros id f ->. rewrite range_db_singleton. apply redirect_response.
  - intros Hne.
    destruct (answer_random_pick env newResponseWriter (range_db env (db h)).*1)
      as (id & Hin & -> & _).
    { intros Hnil. apply Hne, map_size_empty_inv.
      by rewrite <-(range_db_length env), <-(length_fmap fst), Hnil. }
    exists id. split; [|apply redirect_response].
    apply list_elem_of_fmap in Hin as ([k f] & -> & Hin).
    rewrite range_db_Permutation in Hin.
    apply elem_of_map_to_list in Hin. by exists f.
Qed.

(** The scenario of the specification: a store with the one record [123]. *)
Lemma getFish_random_redirect_witness :
  ∃ w', getFish env1 one_pike newResponseWriter (GET "/fishes/random")
        = Some (one_pike, w') ∧
        status w' = StatusFound ∧ sent_header w' "Location" = ["/fishes/123"].
Proof.
  destruct (getFish_random_redirect env1 one_pike) as (w' & Hg & _ & Hone & _).
  exists w'. split; [exact Hg|]. apply (Hone "123" pike). reflexivity.
Defined.

(** C7, as stated, fails: what is split is not the request path but the
    URL string, query included.  For the path [/fishes/random] with the
    query [x=1] the third component of the path is [random], yet the request
    is not handled by random selection: [random?x=1] is looked up in the
    store and the answer is 404, where random selection answers 302. *)
Lemma random_with_query_not_intercepted :
  strings_Split (Path (URL random_with_query)) "/" = [""; "fishes"; "random"] ∧
  getFish env0 one_salmon newResponseWriter random_with_query
  = Some (one_salmon, not_found newResponseWriter) ∧
  getRandomCoaster env0 one_salmon newResponseWriter random_with_query
  = Some (one_salmon, redirect newResponseWriter "1700000000000000000") ∧
  status (not_found newResponseWriter) = StatusNotFound ∧
  status (redirect newResponseWriter "1700000000000000000") = StatusFound.
Proof. by vm_compute. Qed.

(** C7, amended.  [getFish] splits the URL string of the request (the
    escaped path, followed by [?] and the query when there is one) on [/].
    Any number of components other than three is answered 404, whatever the
    store holds.  With three components, a third component [random] hands
    the request to random selection, whether or not [random] is a key; any
    other third component is looked up.  A URL string [/fishes/seg] with no
    [/] in [seg] has the components empty, [fishes], [seg]. *)
Theorem getFish_splits_URL_string env h w r :
  let parts := strings_Split (URL_String (URL r)) "/" in
  (length parts ≠ 3%nat → getFish env h w r = Some (h, not_found w)) ∧
  (∀ a b, parts = [a; b; "random"] →
     getFish env h w r = getRandomCoaster env h w r) ∧
  (∀ a b seg, parts = [a; b; seg] → seg ≠ "random" →
     getFish env h w r
     = Some (h, match db h !! seg with
                | Some f => found_fish w f
                | None => not_found w
                end)) ∧
  (∀ seg, URL_String (URL r) = "/fishes/" +:+ seg → occurs "/" seg = false →
     parts = [""; "fishes"; seg]).
Proof.
  intros parts. split_and!.
  - intros Hlen. unfold getFish. fold parts.
    destruct parts as [|a [|b [|seg [|x parts]]]]; done.
  - intros a b Hp. unfold getFish. fold parts. rewrite Hp.
    by rewrite decide_True.
  - intros a b seg Hp Hseg. unfold getFish. fold parts. rewrite Hp.
    rewrite decide_False by done. by destruct (db h !! seg).
  - intros seg Hu Hs. unfold parts.
    by rewrite Hu, strings_Split_fishes, (strings_Split_none _ _ Hs).
Qed.

(** Two instances: [/fishes/a/b] has four components, and [/fishes/random]
    on a store that has a record under the key [random]. *)
Lemma getFish_splits_URL_string_witness :
  getFish env0 one_pike newResponseWriter (GET "/fishes/a/b")
  = Some (one_pike, not_found newResponseWriter) ∧
  getFish env0 (mkFishesHandler {[ "random" := pike ]}) newResponseWriter
    (GET "/fishes/random")
  = getRandomCoaster env0 (mkFishesHandler {[ "random" := pike ]}) newResponseWriter
      (GET "/fishes/random").
Proof.
  split.
  - destruct (getFish_splits_URL_string env0 one_pike newResponseWriter
                (GET "/fishes/a/b")) as (H404 & _).
    apply H404. intros Hlen. discriminate Hlen.
  - destruct (getFish_splits_URL_string env0
                (mkFishesHandler {[ "random" := pike ]}) newResponseWriter
                (GET "/fishes/random")) as (_ & Hrandom & _).
    apply (Hrandom "" "fishes"). reflexivity.
Defined.

(** C8.  In every store reached from the empty one by a sequence of calls
    of the handlers, each key is the [ID] of the record stored under it. *)
Theorem reachable_key_is_ID h k f :
  reachable h → db h !! k = Some f → ID f = k.
Proof.
  intros [trace ->] Hl. by destruct (run_entries _ _ _ Hl).
Qed.

Lemma reachable_key_is_ID_witness :
  reachable (run [insert_call (env0, salmon); insert_call (env1, trout)]) ∧
  ID (inserted (env1, trout)) = "1700000000000000001".
Proof.
  assert (reachable (run [insert_call (env0, salmon); insert_call (env1, trout)]))
    as Hr by (eexists; reflexivity).
  split; [exact Hr|].
  apply (reachable_key_is_ID _ "1700000000000000001" (inserted (env1, trout)) Hr).
  by vm_compute.
Defined.

(** C9.  The claim: every store operation does all its reading of the map,
    the reading of its size included, with the mutex held.  [getAllFishes],
    [getFish] and [addNewFish] do.  [getRandomCoaster] reads [len(h.db)]
    before it takes the mutex.  With the schedule below, on any store,
    thread 0 (a random pick) sizes [ids] for the keys there are, thread 1
    (the insert of a record under a new key) then runs to its end, and
    thread 0, now holding the mutex, ranges over one key more than [ids] has
    room for: the index check fails, the goroutine panics, and the mutex is
    never released. *)
Theorem getRandomCoaster_sizes_ids_unlocked env m fish :
  m !! ID fish = None →
  Interleaving.guarded false Interleaving.getAllFishes_ops = true ∧
  (∀ key, Interleaving.guarded false (Interleaving.getFish_ops key) = true) ∧
  Interleaving.guarded false (Interleaving.addNewFish_ops fish) = true ∧
  Interleaving.guarded false Interleaving.getRandomCoaster_ops = false ∧
  Interleaving.exec env [0; 1; 1; 1; 0; 0]%nat
    (Interleaving.start m
       [Interleaving.getRandomCoaster_ops; Interleaving.addNewFish_ops fish])
  = Some (Interleaving.mkState (<[ID fish := fish]> m) (Some 0%nat)
            [Interleaving.mkThread [] (make_strings (size m)) None None true;
             Interleaving.mkThread [] [] None None false]).
Proof.
  intros Hfresh. split_and!; [done..|].
  unfold Interleaving.start, Interleaving.getRandomCoaster_ops,
    Interleaving.addNewFish_ops. simpl.
  unfold Interleaving.step. simpl.
  rewrite fill_ids_short; [done|].
  rewrite length_fmap, range_db_length, map_size_insert_None by done.
  unfold make_strings. rewrite length_replicate. lia.
Qed.

Lemma getRandomCoaster_sizes_ids_unlocked_witness :
  Interleaving.guarded false Interleaving.getRandomCoaster_ops = false ∧
  Interleaving.exec env0 [0; 1; 1; 1; 0; 0]%nat
    (Interleaving.start ∅
       [Interleaving.getRandomCoaster_ops;
        Interleaving.addNewFish_ops (inserted (env0, salmon))])
  = Some (Interleaving.mkState
            {[ "1700000000000000000" := inserted (env0, salmon) ]}
            (Some 0%nat)
            [Interleaving.mkThread [] [] None None true;
             Interleaving.mkThread [] [] None None false]).
Proof.
  assert ((∅ : gmap string Fish) !! ID (inserted (env0, salmon)) = None) as Hfresh
    by reflexivity.
  destruct (getRandomCoaster_sizes_ids_unlocked env0 ∅ (inserted (env0, salmon))
              Hfresh) as (_ & _ & _ & Hg & Hexec).
  split; [exact Hg | exact Hexec].
Defined.

(** The same two operations with the pick after the insert: no panic. *)
Example getRandomCoaster_after_insert :
  Interleaving.exec env0 [1; 1; 1; 0; 0; 0; 0]%nat
    (Interleaving.start ∅
       [Interleaving.getRandomCoaster_ops;
        Interleaving.addNewFish_ops (inserted (env0, salmon))])
  = Some (Interleaving.mkState
            {[ "1700000000000000000" := inserted (env0, salmon) ]}
            None
            [Interleaving.mkThread [] ["1700000000000000000"] None None false;
             Interleaving.mkThread [] [] None None false]).
Proof. by vm_compute. Qed.

(** C10.  [getFish] looks up a segment cut from the URL string.  In every
    reachable store, a stored identifier followed by a query is not found:
    the answer is 404, while the same identifier without query is answered
    200 with the record. *)
Theorem getFish_query_suffix_404 h id f env p force q hdr b :
  reachable h →
  db h !! id = Some f →
  force = true ∨ q ≠ "" →
  getFish env h newResponseWriter
    (mkRequest "GET" (mkURL p ("/fishes/" +:+ id) force q) hdr b)
  = Some (h, not_found newResponseWriter) ∧
  status (not_found newResponseWriter) = StatusNotFound ∧
  getFish env h newResponseWriter (GET ("/fishes/" +:+ id))
  = Some (h, found_fish newResponseWriter f) ∧
  status (found_fish newResponseWriter f) = StatusOK ∧
  response_body (found_fish newResponseWriter f) = [Json (marshal_Fish f)].
Proof.
  intros [trace ->] Hl Hq.
  destruct (run_entries _ _ _ Hl) as [_ (t & _ & ->)].
  split_and!; [| done | | done | done].
  - unfold getFish. simpl URL. rewrite (URL_String_query _ _ _ _ Hq).
    rewrite append_assoc, strings_Split_fishes.
    destruct (strings_Split _ "/") as [|seg [|x parts]] eqn:Hs; [done| |done].
    apply strings_Split_single in Hs as [-> _].
    assert (occurs "?" (Sprintf_d t +:+ "?" +:+ q) = true) as Ho.
    { rewrite occurs_app. apply orb_true_intro. by right. }
    rewrite decide_False by (intros Heq; by rewrite Heq in Ho).
    destruct (db (run trace) !! (Sprintf_d t +:+ "?" +:+ q)) as [f'|] eqn:Hl';
      [|done].
    destruct (run_entries _ _ _ Hl') as [_ (t' & _ & Heq)].
    rewrite Heq, Sprintf_d_no_query in Ho. done.
  - rewrite (getFish_segment _ _ _ _ (Sprintf_d t)).
    + by rewrite Hl.
    + simpl. apply URL_String_plain.
    + apply Sprintf_d_no_slash.
    + apply Sprintf_d_not_random.
Qed.

Lemma getFish_query_suffix_404_witness :
  getFish env1 one_salmon newResponseWriter
    (mkRequest "GET"
       (mkURL "/fishes/1700000000000000000" "/fishes/1700000000000000000" false "x=1")
       ∅ (BodyData truncated))
  = Some (one_salmon, not_found newResponseWriter) ∧
  getFish env1 one_salmon newResponseWriter (GET "/fishes/1700000000000000000")
  = Some (one_salmon, found_fish newResponseWriter (inserted (env0, salmon))).
Proof.
  assert (reachable one_salmon) as Hr by (eexists; reflexivity).
  assert (db one_salmon !! "1700000000000000000"
          = Some (inserted (env0, salmon))) as Hl by (by vm_compute).
  assert (false = true ∨ "x=1" ≠ "") as Hq by (by right).
  destruct (getFish_query_suffix_404 _ "1700000000000000000" _ env1
              "/fishes/1700000000000000000" false "x=1" ∅ (BodyData truncated)
              Hr Hl Hq) as (H404 & _ & H200 & _).
  split; [exact H404 | exact H200].
Defined.

(** * Further properties of the code *)

(** ** Helper facts *)

Lemma step_no_insert h env c : inserts c = false → step h (env, c) = h.
Proof.
  destruct c as [r|r]; simpl; intros Hi; [|apply step_getFish].
  rewrite step_fishes. unfold fishes.
  destruct (decide (Method r = "GET")) as [Hget|Hget];
    [apply getAllFishes_store|].
  destruct (decide (Method r = "POST")) as [Hpost|Hpost]; [|done].
  rewrite bool_decide_eq_true_2 in Hi by done. simpl in Hi.
  unfold addNewFish. destruct (Body r) as [msg|d]; [done|].
  apply bool_decide_eq_false in Hi. by rewrite decide_True.
Qed.

Lemma run_app t1 t2 : run (t1 ++ t2) = foldl step (run t1) t2.
Proof. unfold run. by rewrite foldl_app. Qed.

(** The statuses [addNewFish] can answer with. *)
Lemma addNewFish_status env h r :
  status (addNewFish env h newResponseWriter r).2 = StatusOK ∨
  status (addNewFish env h newResponseWriter r).2 = StatusBadRequest ∨
  status (addNewFish env h newResponseWriter r).2 = StatusUnsupportedMediaType ∨
  status (addNewFish env h newResponseWriter r).2 = StatusInternalServerError.
Proof.
  unfold addNewFish. destruct (Body r) as [msg|d]; [by do 3 right|].
  case_decide as Hct; [by right; right; left|].
  destruct (json_Unmarshal d zeroFish) as [fish [e|]]; [by right; left|by left].
Qed.

Lemma getAllFishes_status env h r :
  status (getAllFishes env h newResponseWriter r).2 = StatusOK.
Proof.
  unfold getAllFishes. by destruct (json_Marshal_Fishes _) as [j [e|]] eqn:Hm;
    destruct (snapshot env h); simplify_eq/=.
Qed.

(** X1.  A call changes the store only if it is a POST on [/fishes] whose
    body could be read and whose content type is [application/json].  Every
    other call (a GET, a method that is not allowed, an unreadable body, a
    wrong content type, any request below [/fishes/]) leaves the handler's
    state exactly as it was. *)
Theorem store_changes_only_by_accepted_POST h env c :
  step h (env, c) ≠ h →
  ∃ r d, c = CallFishes r ∧ Method r = "POST" ∧ Body r = BodyData d ∧
         Header_Get (Header r) "Content-Type" = "application/json" ∧
         db (step h (env, c)) = <[Sprintf_d (now env) := stored_fish env d]> (db h).
Proof.
  intros Hne. destruct (inserts c) eqn:Hi.
  - destruct c as [r|r]; [|done]. simpl in Hi.
    apply andb_prop in Hi as [Hm Hi]. apply bool_decide_eq_true in Hm.
    destruct (Body r) as [msg|d] eqn:Hb; [done|].
    apply bool_decide_eq_true in Hi.
    exists r, d. split_and!; [done..|].
    rewrite step_fishes. unfold fishes. rewrite Hm. simpl.
    by apply addNewFish_db.
  - destruct Hne. by apply step_no_insert.
Qed.

Lemma store_changes_only_by_accepted_POST_witness :
  ∃ r d, insert_call (env0, salmon) = (env0, CallFishes r) ∧ Method r = "POST" ∧
         Body r = BodyData d ∧
         Header_Get (Header r) "Content-Type" = "application/json".
Proof.
  destruct (store_changes_only_by_accepted_POST newFishesHander env0
              (CallFishes (POST json_header (BodyData salmon))))
    as (r & d & Hc & Hm & Hb & Hct & _).
  - vm_compute. intros Heq. discriminate Heq.
  - exists r, d. split_and!; [by rewrite <-Hc|done..].
Defined.

(** X2.  [fishes] answers 405 exactly for the methods other than [GET] and
    [POST] (the comparison is by exact string, so [get] is not allowed
    either); the body then reads [method not allowed] and the store is not
    touched. *)
Theorem fishes_405_iff_other_method env h r :
  (status (fishes env h newResponseWriter r).2 = StatusMethodNotAllowed
   ↔ Method r ≠ "GET" ∧ Method r ≠ "POST") ∧
  (Method r ≠ "GET" → Method r ≠ "POST" →
   (fishes env h newResponseWriter r).1 = h ∧
   response_body (fishes env h newResponseWriter r).2
     = [Text "method not allowed"]).
Proof.
  split.
  - unfold fishes. case_decide as Hget.
    + rewrite getAllFishes_status. split; [done|]. by intros [? _].
    + case_decide as Hpost; [|done].
      split; [|by intros [_ ?]]. intros Hs.
      destruct (addNewFish_status env h r) as [Hin|[Hin|[Hin|Hin]]];
        rewrite Hs in Hin; discriminate Hin.
  - intros Hget Hpost. unfold fishes. by rewrite !decide_False.
Qed.

Lemma fishes_405_iff_other_method_witness :
  status (fishes env0 one_pike newResponseWriter
            (mkRequest "get" (plain_url "/fishes") ∅ (BodyData truncated))).2
  = StatusMethodNotAllowed.
Proof.
  destruct (fishes_405_iff_other_method env0 one_pike
              (mkRequest "get" (plain_url "/fishes") ∅ (BodyData truncated)))
    as [[_ H405] _].
  apply H405. split; intros Heq; discriminate Heq.
Defined.

(** X3.  The store never loses a key: what is stored under a key after some
    calls is still stored under a key after any further calls, and it is
    the same record unless one of the further inserts read the clock value
    that renders as that key. *)
Theorem records_survive_later_calls t1 t2 k f :
  db (run t1) !! k = Some f →
  is_Some (db (run (t1 ++ t2)) !! k) ∧
  ((∀ t, t ∈ ticks t2 → Sprintf_d t ≠ k) →
   db (run (t1 ++ t2)) !! k = Some f).
Proof.
  intros Hl. induction t2 as [|ec t2 IH] using rev_ind.
  - rewrite app_nil_r. by split; [exists f|].
  - destruct IH as [Hsome IH].
    rewrite (assoc_L (++)), run_snoc, ticks_snoc.
    destruct (step_db (run (t1 ++ t2)) ec) as [[-> ->]|[-> [d ->]]].
    + rewrite app_nil_r. done.
    + split.
      * rewrite lookup_insert_is_Some. destruct (decide (Sprintf_d (now ec.1) = k));
          [by left|by right].
      * intros Hfresh. rewrite lookup_insert_ne.
        { apply IH. intros t Ht. apply Hfresh, elem_of_app. by left. }
        apply Hfresh, elem_of_app. right. constructor.
Qed.

Lemma records_survive_later_calls_witness :
  db (run ([insert_call (env0, salmon)] ++ [insert_call (env1, trout)]))
    !! "1700000000000000000"
  = Some (inserted (env0, salmon)).
Proof.
  destruct (records_survive_later_calls [insert_call (env0, salmon)]
              [insert_call (env1, trout)] "1700000000000000000"
              (inserted (env0, salmon))) as [_ Hsame].
  - by vm_compute.
  - apply Hsame.
    assert (ticks [insert_call (env1, trout)] = [1700000000000000001]) as ->
      by (by vm_compute).
    intros t Ht Heq. apply list_elem_of_singleton in Ht. subst t.
    vm_compute in Heq. discriminate Heq.
Defined.

(** X4.  After any sequence of inserts from the empty store, with or without
    repeated clock readings, what is stored under a key is the record of
    the last insert whose clock reading renders as that key, and nothing is
    stored under a key no insert was given. *)
Theorem lookup_after_inserts_is_last posts k :
  db (run (insert_call <$> posts)) !! k
  = inserted <$> last (filter (λ ed, Sprintf_d (now ed.1) = k) posts).
Proof.
  induction posts as [|ed posts IH] using rev_ind.
  - unfold run. simpl. by rewrite lookup_empty.
  - rewrite fmap_app. simpl. rewrite run_snoc, step_insert_call, filter_app.
    rewrite filter_cons, filter_nil.
    destruct (decide (Sprintf_d (now ed.1) = k)) as [<-|Hne].
    + by rewrite lookup_insert_eq, last_snoc.
    + by rewrite lookup_insert_ne, app_nil_r.
Qed.

(** X5.  Inserts with pairwise distinct clock readings can be made in any
    order: the store they leave is the same. *)
Theorem inserts_commute posts1 posts2 :
  posts1 ≡ₚ posts2 →
  NoDup ((λ ed, now ed.1) <$> posts1) →
  run (insert_call <$> posts1) = run (insert_call <$> posts2).
Proof.
  intros Hp Hnd.
  assert (db (run (insert_call <$> posts1)) = db (run (insert_call <$> posts2)))
    as Hdb.
  { apply map_to_list_inj.
    rewrite !run_insert_calls_entries; [by rewrite Hp|by rewrite <-Hp|done]. }
  destruct (run (insert_call <$> posts1)), (run (insert_call <$> posts2)).
  simpl in Hdb. by rewrite Hdb.
Qed.

Lemma inserts_commute_witness :
  run [insert_call (env0, salmon); insert_call (env1, trout)]
  = run [insert_call (env1, trout); insert_call (env0, salmon)].
Proof.
  apply (inserts_commute [(env0, salmon); (env1, trout)]
           [(env1, trout); (env0, salmon)]).
  - apply perm_swap.
  - apply NoDup_cons. split; [|apply NoDup_singleton].
    intros Hin. apply list_elem_of_singleton in Hin. discriminate Hin.
Defined.

Lemma remove_dups_fmap_inj {A B} `{EqDecision A, EqDecision B}
    (f : A → B) `{!Inj (=) (=) f} (l : list A) :
  remove_dups (f <$> l) = f <$> remove_dups l.
Proof.
  induction l as [|x l IH]; [done|]. rewrite fmap_cons. cbn [remove_dups].
  destruct (decide_rel (∈) x l) as [Hin|Hin];
    destruct (decide_rel (∈) (f x) (f <$> l)) as [Hin'|Hin'].
  - done.
  - destruct Hin'. by apply list_elem_of_fmap_2.
  - destruct Hin. by apply (list_elem_of_fmap_inj f).
  - by rewrite fmap_cons, IH.
Qed.

Lemma dom_run_insert_calls posts :
  dom (db (run (insert_call <$> posts)))
  = list_to_set (Sprintf_d <$> ((λ ed, now ed.1) <$> posts)).
Proof.
  induction posts as [|ed posts IH] using rev_ind.
  - unfold run. simpl. by rewrite dom_empty_L.
  - rewrite !fmap_app. simpl. rewrite run_snoc, step_insert_call.
    rewrite dom_insert_L, IH, list_to_set_app_L. simpl.
    rewrite (right_id_L ∅ (∪)). apply (comm_L (∪)).
Qed.

(** X6.  After any sequence of inserts from the empty store, the store holds
    as many records as there were distinct clock readings, and that many
    records are listed: every insert that read a clock value read before
    costs one record. *)
Theorem size_after_inserts_is_distinct_ticks posts env :
  size (db (run (insert_call <$> posts)))
    = length (remove_dups ((λ ed, now ed.1) <$> posts)) ∧
  length (elements_of (snapshot env (run (insert_call <$> posts))))
    = length (remove_dups ((λ ed, now ed.1) <$> posts)).
Proof.
  assert (size (db (run (insert_call <$> posts)))
          = length (remove_dups ((λ ed, now ed.1) <$> posts))) as Hsize.
  { rewrite <-size_dom, dom_run_insert_calls.
    rewrite <-(length_fmap Sprintf_d (remove_dups _)).
    rewrite <-(remove_dups_fmap_inj Sprintf_d)
      by (intros ??; apply Sprintf_d_inj).
    rewrite <-(size_list_to_set (C := gset string));
      [|apply NoDup_remove_dups].
    f_equal. apply set_eq. intros x.
    by rewrite !elem_of_list_to_set, elem_of_remove_dups. }
  split; [done|].
  by rewrite elements_of_snapshot, length_fmap, range_db_length.
Qed.

(** [strings.Split] yields one component more than there are separators. *)
Lemma strings_Split_length s sep :
  length (strings_Split s sep) = S (count_char sep s).
Proof.
  induction s as [|c s IH]; simpl; [done|].
  case_decide; simpl; [by rewrite IH|].
  destruct (strings_Split s sep) as [|p ps]; simpl in *; [done|]. lia.
Qed.

(** X7.  [getFish] answers 404, without looking at the store, whenever the
    URL string does not hold exactly two [/]: a trailing slash after the
    identifier, a further path segment, or a [/] inside the query string
    all make an existing record unreachable. *)
Theorem getFish_404_unless_two_slashes env h w r :
  count_char "/" (URL_String (URL r)) ≠ 2%nat →
  getFish env h w r = Some (h, not_found w).
Proof.
  intros Hc. unfold getFish.
  pose proof (strings_Split_length (URL_String (URL r)) "/") as Hlen.
  destruct (strings_Split _ _) as [|a [|b [|seg [|x parts]]]]; try done.
  simpl in Hlen. destruct Hc. lia.
Qed.

Lemma getFish_404_unless_two_slashes_witness :
  getFish env1 one_pike newResponseWriter (GET "/fishes/123/")
  = Some (one_pike, not_found newResponseWriter) ∧
  getFish env1 one_pike newResponseWriter
    (mkRequest "GET" (mkURL "/fishes/123" "/fishes/123" false "next=/home") ∅
       (BodyData truncated))
  = Some (one_pike, not_found newResponseWriter).
Proof.
  split; apply getFish_404_unless_two_slashes; vm_compute;
    intros Heq; discriminate Heq.
Defined.

(** X8.  In every reachable store the keys are decimal numbers, so a
    request for [/fishes/seg] where [seg] is not [random] and holds a byte
    other than a digit or a minus sign is answered 404, whatever was
    inserted before. *)
Theorem getFish_non_decimal_segment_404 env h w r seg :
  reachable h →
  URL_String (URL r) = "/fishes/" +:+ seg →
  seg ≠ "random" →
  all_chars decimal_char seg = false →
  getFish env h w r = Some (h, not_found w).
Proof.
  intros [trace ->] Hu Hr Hd. unfold getFish.
  rewrite Hu, strings_Split_fishes.
  destruct (strings_Split seg "/") as [|seg' [|x parts]] eqn:Hs; [done| |done].
  apply strings_Split_single in Hs as [-> _].
  rewrite decide_False by done.
  destruct (db (run trace) !! seg) as [f|] eqn:Hl; [|done].
  destruct (run_entries _ _ _ Hl) as [_ (t & _ & ->)].
  by rewrite Sprintf_d_decimal in Hd.
Qed.

Lemma getFish_non_decimal_segment_404_witness :
  getFish env1 salmon_and_trout newResponseWriter (GET "/fishes/doesnotexist")
  = Some (salmon_and_trout, not_found newResponseWriter).
Proof.
  apply (getFish_non_decimal_segment_404 _ _ _ _ "doesnotexist").
  - eexists; reflexivity.
  - reflexivity.
  - intros Heq; discriminate Heq.
  - reflexivity.
Defined.

(** X9.  In every reachable store that holds a record, the redirect of
    [GET /fishes/random] leads somewhere: the [Location] it names is
    [/fishes/id] for a stored identifier, and a [GET] of that location is
    answered 200 with the record whose [ID] is that identifier. *)
Theorem random_redirect_resolves env env' h :
  reachable h →
  db h ≠ ∅ →
  ∃ id f,
    getFish env h newResponseWriter (GET "/fishes/random")
      = Some (h, redirect newResponseWriter id) ∧
    sent_header (redirect newResponseWriter id) "Location" = ["/fishes/" +:+ id] ∧
    ID f = id ∧
    getFish env' h newResponseWriter (GET ("/fishes/" +:+ id))
      = Some (h, found_fish newResponseWriter f).
Proof.
  intros [trace ->] Hne.
  destruct (answer_random_pick env newResponseWriter
              (range_db env (db (run trace))).*1) as (id & Hin & Hans & _).
  { intros Hnil. apply Hne, map_size_empty_inv.
    by rewrite <-(range_db_length env), <-(length_fmap fst), Hnil. }
  apply list_elem_of_fmap in Hin as ([k f] & -> & Hin).
  rewrite range_db_Permutation in Hin. apply elem_of_map_to_list in Hin.
  destruct (run_entries _ _ _ Hin) as [Hid (t & _ & Hk)]. simpl in *.
  exists k, f. split_and!.
  - unfold getFish. simpl. by rewrite getRandomCoaster_eq, Hans.
  - apply redirect_response.
  - done.
  - rewrite (getFish_segment _ _ _ _ k).
    + by rewrite Hin.
    + simpl. apply URL_String_plain.
    + rewrite Hk. apply Sprintf_d_no_slash.
    + rewrite Hk. apply Sprintf_d_not_random.
Qed.

Lemma random_redirect_resolves_witness :
  ∃ id f,
    getFish env1 salmon_and_trout newResponseWriter (GET "/fishes/random")
      = Some (salmon_and_trout, redirect newResponseWriter id) ∧
    getFish env0 salmon_and_trout newResponseWriter (GET ("/fishes/" +:+ id))
      = Some (salmon_and_trout, found_fish newResponseWriter f).
Proof.
  destruct (random_redirect_resolves env1 env0 salmon_and_trout)
    as (id & f & Hr & _ & _ & Hg).
  - eexists; reflexivity.
  - vm_compute. intros Heq. discriminate Heq.
  - exists id, f. split; [exact Hr | exact Hg].
Defined.

(** In a reachable store the identifiers of the ranged-over records are the
    keys they sit under. *)
Lemma ids_of_entries (l : list (string * Fish)) :
  Forall (λ kf, ID kf.2 = kf.1) l → ID <$> l.*2 = l.*1.
Proof.
  induction 1 as [|[k f] l Hkf _ IH]; [done|].
  rewrite !fmap_cons. simpl in *. by rewrite Hkf, IH.
Qed.

Lemma range_db_ids env trace :
  ID <$> (range_db env (db (run trace))).*2 = (range_db env (db (run trace))).*1.
Proof.
  apply ids_of_entries, Forall_forall. intros [k f] Hin.
  rewrite range_db_Permutation in Hin.
  apply elem_of_map_to_list in Hin. by destruct (run_entries _ _ _ Hin).
Qed.

(** X10.  In every reachable store, [GET /fishes] lists as many records as
    the store holds and no two of them have the same [id]. *)
Theorem listing_has_distinct_ids env h :
  reachable h →
  length (elements_of (snapshot env h)) = size (db h) ∧
  NoDup (ID <$> elements_of (snapshot env h)).
Proof.
  intros [trace ->]. rewrite elements_of_snapshot. split.
  - by rewrite length_fmap, range_db_length.
  - rewrite range_db_ids, range_db_Permutation. apply NoDup_fst_map_to_list.
Qed.

Lemma listing_has_distinct_ids_witness :
  length (elements_of (snapshot env1 salmon_and_trout)) = 2%nat ∧
  NoDup (ID <$> elements_of (snapshot env1 salmon_and_trout)).
Proof.
  assert (reachable salmon_and_trout) as Hr by (eexists; reflexivity).
  destruct (listing_has_distinct_ids env1 salmon_and_trout Hr) as [Hlen Hnd].
  split; [exact Hlen | exact Hnd].
Defined.

(** X11.  In every reachable store, the records [GET /fishes] lists are the
    records stored under their own [ID], and each of them is what
    [GET /fishes/id] answers, with status 200, for its [id]. *)
Theorem listed_records_can_be_fetched env env' h f :
  reachable h →
  (f ∈ elements_of (snapshot env h) ↔ db h !! ID f = Some f) ∧
  (f ∈ elements_of (snapshot env h) →
   getFish env' h newResponseWriter (GET ("/fishes/" +:+ ID f))
   = Some (h, found_fish newResponseWriter f)).
Proof.
  intros [trace ->].
  assert (f ∈ elements_of (snapshot env (run trace))
          ↔ db (run trace) !! ID f = Some f) as Hiff.
  { rewrite elements_of_snapshot, range_db_Permutation. split.
    - intros ([k f'] & -> & Hin)%list_elem_of_fmap. simpl.
      apply elem_of_map_to_list in Hin.
      by destruct (run_entries _ _ _ Hin) as [-> _].
    - intros Hl. apply elem_of_map_to_list in Hl.
      by apply (list_elem_of_fmap_2 snd) in Hl. }
  split; [done|]. intros Hl%Hiff.
  destruct (run_entries _ _ _ Hl) as [_ (t & _ & Hk)].
  rewrite (getFish_segment _ _ _ _ (ID f)).
  - by rewrite Hl.
  - simpl. apply URL_String_plain.
  - rewrite Hk. apply Sprintf_d_no_slash.
  - rewrite Hk. apply Sprintf_d_not_random.
Qed.

Lemma listed_records_can_be_fetched_witness :
  getFish env0 salmon_and_trout newResponseWriter
    (GET ("/fishes/" +:+ ID (inserted (env1, trout))))
  = Some (salmon_and_trout, found_fish newResponseWriter (inserted (env1, trout))).
Proof.
  assert (reachable salmon_and_trout) as Hr by (eexists; reflexivity).
  destruct (listed_records_can_be_fetched env1 env0 salmon_and_trout
              (inserted (env1, trout)) Hr) as [Hiff Hget].
  apply Hget, Hiff. by vm_compute.
Defined.

(** X12.  A POST that is accepted and whose body decodes without error is
    answered without a word: [addNewFish] writes no status, no header and no
    body, so the client gets a bare 200 and is not told the identifier the
    record was stored under. *)
Theorem addNewFish_success_writes_nothing env h w r d fish :
  Body r = BodyData d →
  Header_Get (Header r) "Content-Type" = "application/json" →
  json_Unmarshal d zeroFish = (fish, None) →
  (addNewFish env h w r).2 = w ∧
  status (addNewFish env h newResponseWriter r).2 = StatusOK ∧
  response_body (addNewFish env h newResponseWriter r).2 = [] ∧
  (∀ key, sent_header (addNewFish env h newResponseWriter r).2 key = []) ∧
  db (addNewFish env h w r).1
    = <[Sprintf_d (now env) := set_ID fish (Sprintf_d (now env))]> (db h).
Proof.
  intros Hb Hct Hdec.
  assert (∀ w, addNewFish env h w r
               = (mkFishesHandler
                    (<[Sprintf_d (now env) := set_ID fish (Sprintf_d (now env))]>
                       (db h)), w)) as Heq.
  { intros w'. unfold addNewFish. rewrite Hb, Hct.
    rewrite decide_False by (intros Hne; by apply Hne). by rewrite Hdec. }
  rewrite !Heq. split_and!; done.
Qed.

Lemma addNewFish_success_writes_nothing_witness :
  (addNewFish env0 newFishesHander newResponseWriter
     (POST json_header (BodyData salmon))).2 = newResponseWriter.
Proof.
  destruct (addNewFish_success_writes_nothing env0 newFishesHander
              newResponseWriter (POST json_header (BodyData salmon)) salmon
              (mkFish "" "Salmon" "river" 90) eq_refl eq_refl eq_refl)
    as (Hw & _).
  exact Hw.
Defined.

Lemma json_answer_intro j :
  json_answer
    (Write (WriteHeader
              (Header_Add newResponseWriter "Content-Type" "application/json")
              StatusOK) (Json j)).
Proof. split_and!; [done|done|by exists j]. Qed.

Lemma plain_answer_status code :
  plain_answer (WriteHeader newResponseWriter code).
Proof. split; [done|constructor]. Qed.

Lemma plain_answer_text code txt :
  plain_answer (Write (WriteHeader newResponseWriter code) (Text txt)).
Proof. split; [done|]. repeat constructor. intros j Hj. discriminate Hj. Qed.

Lemma plain_answer_error code e :
  plain_answer (Write (WriteHeader newResponseWriter code) (ErrText e)).
Proof. split; [done|]. repeat constructor. intros j Hj. discriminate Hj. Qed.

Lemma plain_answer_redirect target :
  plain_answer (redirect newResponseWriter target).
Proof. split; [done|constructor]. Qed.

Lemma fishes_answer env h r :
  json_answer (fishes env h newResponseWriter r).2 ∨
  plain_answer (fishes env h newResponseWriter r).2.
Proof.
  unfold fishes.
  destruct (decide (Method r = "GET")) as [Hget|Hget].
  { left. unfold getAllFishes.
    destruct (snapshot env h) as [l|]; simpl; apply json_answer_intro. }
  right. destruct (decide (Method r = "POST")) as [Hpost|Hpost];
    [|apply plain_answer_text].
  unfold addNewFish. destruct (Body r) as [msg|d]; [apply plain_answer_error|].
  case_decide as Hct; [apply plain_answer_text|].
  destruct (json_Unmarshal d zeroFish) as [fish [e|]]; simpl;
    [apply plain_answer_error|]. split; [done|constructor].
Qed.

Lemma getFish_answer env h r h' w' :
  getFish env h newResponseWriter r = Some (h', w') →
  json_answer w' ∨ plain_answer w'.
Proof.
  unfold getFish. rewrite getRandomCoaster_eq.
  destruct (strings_Split _ _) as [|a [|b [|seg [|x parts]]]];
    try (intros [= <- <-]; right; apply plain_answer_status).
  case_decide as Hrandom.
  - intros [= <- <-]. right. unfold answer_random.
    case_decide; [apply plain_answer_status|apply plain_answer_redirect].
  - destruct (db h !! seg) as [f|]; intros [= <- <-].
    + left. apply json_answer_intro.
    + right. apply plain_answer_status.
Qed.

(** X13.  Of the answers of the two handlers on the store, exactly those
    with a JSON body are labelled: such an answer has status 200, a single
    JSON body and the header [Content-Type: application/json]; every other
    answer (errors with their text, redirects, the bare 200 and 404) has no
    JSON in its body and no content type set by the handler. *)
Theorem content_type_labels_json_answers env h c h' w' :
  serve env h c = Some (h', w') →
  json_answer w' ∨ plain_answer w'.
Proof.
  destruct c as [r|r]; simpl.
  - intros [= Heq]. pose proof (fishes_answer env h r) as Ha.
    by rewrite Heq in Ha.
  - apply getFish_answer.
Qed.

Lemma content_type_labels_json_answers_witness :
  json_answer (found_fish newResponseWriter pike) ∧
  getFish env0 one_pike newResponseWriter (GET "/fishes/123")
    = Some (one_pike, found_fish newResponseWriter pike).
Proof.
  assert (serve env0 one_pike (CallGetFish (GET "/fishes/123"))
          = Some (one_pike, found_fish newResponseWriter pike)) as Hs
    by (by vm_compute).
  destruct (content_type_labels_json_answers env0 one_pike
              (CallGetFish (GET "/fishes/123")) one_pike
              (found_fish newResponseWriter pike) Hs)
    as [Hj|(Hct & _)].
  - split; [exact Hj | exact Hs].
  - vm_compute in Hct. discriminate Hct.
Defined.

(** X14.  Start-up panics exactly when [ADMIN_PASSWORD] is unset or empty.
    A portal that was created admits a request exactly when it carries
    well-formed Basic credentials with the user name [admin] and the
    password of the environment, answering 200 with the page; every other
    request, one without credentials or with an empty password included, is
    answered 401 with the refusal text. *)
Theorem admin_admits_exactly_the_secret environ user pass ok :
  (newAdminPortal environ = None ↔ os_Getenv environ "ADMIN_PASSWORD" = "") ∧
  (∀ a, newAdminPortal environ = Some a →
     password a = os_Getenv environ "ADMIN_PASSWORD" ∧
     password a ≠ "" ∧
     (status (handler a newResponseWriter (user, pass, ok)) = StatusOK
      ↔ ok = true ∧ user = "admin" ∧
        pass = os_Getenv environ "ADMIN_PASSWORD") ∧
     (status (handler a newResponseWriter (user, pass, ok)) = StatusOK →
      response_body (handler a newResponseWriter (user, pass, ok))
      = [Text "<html><h1>Super secret admin portal </h1></html>"]) ∧
     (status (handler a newResponseWriter (user, pass, ok)) ≠ StatusOK →
      status (handler a newResponseWriter (user, pass, ok)) = StatusUnauthorized ∧
      response_body (handler a newResponseWriter (user, pass, ok))
      = [Text "You do not have the right permission"]) ∧
     status (handler a newResponseWriter (user, "", ok)) = StatusUnauthorized).
Proof.
  unfold newAdminPortal. split.
  - by case_decide.
  - intros a. case_decide as Hpw; [done|]. intros [= <-]. simpl.
    split_and!; [done|done| | | |].
    + unfold handler. simpl.
      destruct ok; simpl; [|by split; [|intros [? _]]].
      case_bool_decide as Hu; simpl; [|by split; [|intros (_ & ? & _)]].
      case_bool_decide as Hp; simpl; [done|by split; [|intros (_ & _ & ?)]].
    + unfold handler. simpl.
      destruct ok; simpl; [|done].
      case_bool_decide; simpl; [|done]. by case_bool_decide.
    + unfold handler. simpl.
      destruct ok; simpl; [|done].
      case_bool_decide; simpl; [|done]. by case_bool_decide.
    + unfold handler. simpl.
      destruct ok; simpl; [|done].
      case_bool_decide; simpl; [|done].
      by rewrite bool_decide_eq_false_2 by (intros Heq; by apply Hpw).
Qed.

Lemma admin_admits_exactly_the_secret_witness :
  ∃ a, newAdminPortal environ0 = Some a ∧
       status (handler a newResponseWriter ("admin", "s3cret", true)) = StatusOK ∧
       status (handler a newResponseWriter ("admin", "", true)) = StatusUnauthorized.
Proof.
  exists (mkAdminPortal "s3cret").
  destruct (admin_admits_exactly_the_secret environ0 "admin" "s3cret" true)
    as [_ Hadmit].
  destruct (Hadmit (mkAdminPortal "s3cret") eq_refl)
    as (_ & _ & Hiff & _ & _ & Hempty).
  split; [reflexivity|]. split; [|exact Hempty].
  apply Hiff. split; [reflexivity|]. split; reflexivity.
Defined.

(** A thread that is done or waiting cannot move while the mutex is held,
    except for the [Alloc] of a [getRandomCoaster], which leaves it
    waiting. *)
Lemma step_while_held env tid st st' :
  is_Some (Interleaving.holder st) →
  Forall (λ t, done_or_waiting t = true) (Interleaving.threads st) →
  Interleaving.step env tid st = Some st' →
  Interleaving.store st' = Interleaving.store st ∧
  Interleaving.holder st' = Interleaving.holder st ∧
  unfinished <$> Interleaving.threads st' = unfinished <$> Interleaving.threads st ∧
  Forall (λ t, done_or_waiting t = true) (Interleaving.threads st').
Proof.
  intros [l Hheld] Hall. unfold Interleaving.step.
  destruct (Interleaving.threads st !! tid) as [t|] eqn:Ht; [|done]. simpl.
  pose proof (Forall_lookup_1 _ _ _ _ Hall Ht) as Hw.
  unfold done_or_waiting in Hw.
  destruct t as [code ids fs fd pn]. simpl in *.
  destruct code as [|o rest]; [done|].
  destruct o; try done; simpl.
  - destruct rest as [|o' rest']; [done|]. destruct o'; try done.
    intros [= <-]. simpl. split_and!; [done|done| |].
    + rewrite list_fmap_insert. apply list_insert_id.
      by rewrite list_lookup_fmap, Ht.
    + by apply Forall_insert.
  - by rewrite Hheld.
Qed.

(** X15.  Once the mutex is held and not given back (as after the panic of
    [getRandomCoaster], which keeps it locked), no store operation gets
    anywhere: whatever the schedule, no waiting goroutine finishes, the
    store stays as it is and the mutex stays held.  All a goroutine can
    still do is the unlocked [len(h.db)] of a random pick. *)
Theorem held_mutex_blocks_every_operation env schedule st st' :
  is_Some (Interleaving.holder st) →
  forallb done_or_waiting (Interleaving.threads st) = true →
  Interleaving.exec env schedule st = Some st' →
  Interleaving.store st' = Interleaving.store st ∧
  Interleaving.holder st' = Interleaving.holder st ∧
  unfinished <$> Interleaving.threads st' = unfinished <$> Interleaving.threads st.
Proof.
  intros Hheld Hall%Is_true_true_2%forallb_True.
  assert (Forall (λ t, done_or_waiting t = true) (Interleaving.threads st))
    as Hall'.
  { eapply Forall_impl; [exact Hall|]. intros t. apply Is_true_true_1. }
  clear Hall. revert st Hheld Hall'.
  induction schedule as [|tid schedule IH]; intros st Hheld Hall; simpl.
  - by intros [= <-].
  - destruct (Interleaving.step env tid st) as [st1|] eqn:Hstep; [|done]. simpl.
    destruct (step_while_held _ _ _ _ Hheld Hall Hstep) as (Hs & Hh & Hu & Hall1).
    intros Hexec. destruct (IH st1) as (Hs' & Hh' & Hu'); [by rewrite Hh|done|done|].
    by rewrite Hs', Hh', Hu'.
Qed.

Lemma held_mutex_blocks_every_operation_witness :
  Interleaving.exec env0 [3%nat] locked_up = Some locked_up_later ∧
  Interleaving.store locked_up_later = ∅ ∧
  Interleaving.holder locked_up_later = Some 0%nat ∧
  unfinished <$> Interleaving.threads locked_up_later
    = [false; true; true; true].
Proof.
  assert (is_Some (Interleaving.holder locked_up)) as Hheld
    by (by eexists).
  assert (Interleaving.exec env0 [3%nat] locked_up = Some locked_up_later)
    as Hexec by reflexivity.
  destruct (held_mutex_blocks_every_operation env0 [3%nat] locked_up
              locked_up_later Hheld eq_refl Hexec) as (Hs & Hh & Hu).
  split; [exact Hexec|]. split; [exact Hs|]. split; [exact Hh | exact Hu].
Defined.

(** X16.  [getFish], run on its own, always returns, whatever the method,
    headers and body of the request: it never panics, never changes the
    store, and answers 200, 302 or 404 and nothing else (so no 405 for a
    POST or DELETE below [/fishes/], and no 500). *)
Theorem getFish_returns_200_302_or_404 env h r :
  ∃ w', getFish env h newResponseWriter r = Some (h, w') ∧
        (status w' = StatusOK ∨ status w' = StatusFound ∨
         status w' = StatusNotFound).
Proof.
  unfold getFish. rewrite getRandomCoaster_eq.
  destruct (strings_Split _ _) as [|a [|b [|seg [|x parts]]]];
    try (eexists; split; [reflexivity|by do 2 right]).
  case_decide as Hrandom.
  - eexists. split; [reflexivity|]. unfold answer_random.
    case_decide; [by do 2 right|by right; left].
  - destruct (db h !! seg) as [f|]; eexists; (split; [reflexivity|]);
      [by left|by do 2 right].
Qed.
